(** * fixtures-ts: dependency resolution and fixture lifecycle

    A shallow embedding of [src/fixtures.ts] (the functions [sortFixtures],
    [getFixture], [defineFixture] and [createFixtures] with its three
    closures [setup], [teardown] and [get]) and of the types of
    [src/types.ts], followed by the properties of the dependency graph
    builder, the topological sorter and the lifecycle orchestrator.

    Conventions of the embedding.
    - A JS [Error] is a constructor of [Error]; [message] gives its text.
    - A registry is an object whose own keys are fixtures and whose
      prototype is [Object.prototype]: [registry[name]] finds an own key
      first and an inherited property otherwise ([Object_prototype]).
    - The record [values] of a pass has one own key per fixture set up so
      far.  A fixture registered under the own key [__proto__] is left
      out of the embedding: [values.__proto__ = v] sets no own key in JS.
    - The two recursive closures ([visit] and [loadDeps]) recurse on a depth
      budget; [OutOfFuel] is the third outcome of such a function and is
      shown never to occur with the budget the callers pass.
    - Fixture [setup] and [cleanup] operations are opaque user code: they
      act on a world [W].  A setup is called and awaited inside the [try],
      so it returns or raises.  A cleanup is called as
      [cleanup().catch(..)]: it returns a promise, which resolves or
      rejects, or it throws before returning one ([Called]).  Every call
      is awaited before the next one, so a promise is the pair of the new
      world and the outcome.
    - Every call of a user operation is recorded as an [Event]; the name
      stored next to a cleanup is bookkeeping that tells which fixture
      returned it (closures have an identity in JS, functions have none
      here). *)

From stdpp Require Import gmap strings list fin_maps relations.

Set Default Proof Using "Type*".

(** ** Outcomes of a call *)

Inductive result (E A : Type) : Type :=
| Ok (a : A)
| Throw (e : E)
| OutOfFuel.
Arguments Ok {E A} a.
Arguments Throw {E A} e.
Arguments OutOfFuel {E A}.

#[export] Instance result_ret {E} : MRet (result E) := λ A a, Ok a.
#[export] Instance result_bind {E} : MBind (result E) := λ A B f r,
  match r with
  | Ok a => f a
  | Throw e => Throw e
  | OutOfFuel => OutOfFuel
  end.

(** [for (const x of l) body(x)] over a state [S], stopping at the first
    call that does not return. *)
Fixpoint for_each {E A S} (body : A → S → result E S) (l : list A) (s : S)
  : result E S :=
  match l with
  | [] => Ok s
  | x :: l' => s' ← body x s; for_each body l' s'
  end.

(** ** Errors *)

Inductive Error (T Err : Type) : Type :=
| CircularDependency (name : T)
| FixtureNotFound (name : T)
| NotInitialized
| Raised (e : Err)
| NotIterable
| NotCallable.
Arguments CircularDependency {T Err} name.
Arguments FixtureNotFound {T Err} name.
Arguments NotInitialized {T Err}.
Arguments Raised {T Err} e.
Arguments NotIterable {T Err}.
Arguments NotCallable {T Err}.

(** The text of the library's own errors; a fixture's error keeps its own.
    [NotIterable] and [NotCallable] are the [TypeError]s of the engine for
    [[...fixture.dependencies]] and [fixture.setup(values)] on an object
    that is no fixture; their text names no fixture. *)
Definition message {Err} (user : Err → string) (e : Error string Err) : string :=
  match e with
  | CircularDependency name => "Circular dependency detected: " +:+ name
  | FixtureNotFound name => "Fixture not found: " +:+ name
  | NotInitialized => "Fixtures not initialized"
  | Raised e => user e
  | NotIterable => "fixture.dependencies is not iterable"
  | NotCallable => "fixture.setup is not a function"
  end.

(** ** [sortFixtures] *)

Record SortState (T : Type) `{Countable T} : Type := mkSort {
  sorted : list T;
  visited : gset T;
  visiting : gset T
}.
Arguments mkSort {T _ _} sorted visited visiting.
Arguments sorted {T _ _} s.
Arguments visited {T _ _} s.
Arguments visiting {T _ _} s.

Section sortFixtures.
Context {T : Type} `{Countable T} {Err : Type}.
Variable dependencies : gmap T (list T).

(** [visiting.add(name)] *)
Definition enter (name : T) (s : SortState T) : SortState T :=
  mkSort (sorted s) (visited s) ({[name]} ∪ visiting s).

(** [visiting.delete(name); visited.add(name); sorted.push(name)] *)
Definition leave (name : T) (s : SortState T) : SortState T :=
  mkSort (sorted s ++ [name]) ({[name]} ∪ visited s) (visiting s ∖ {[name]}).

Fixpoint visit (fuel : nat) (name : T) (s : SortState T)
  : result (Error T Err) (SortState T) :=
  if decide (name ∈ visited s) then Ok s
  else if decide (name ∈ visiting s) then Throw (CircularDependency name)
  else
    s2 ← match dependencies !! name with
         | Some deps =>
             match fuel with
             | 0 => OutOfFuel
             | S fuel' => for_each (visit fuel') deps (enter name s)
             end
         | None => Ok (enter name s)
         end;
    Ok (leave name s2).

Definition sortFixtures (fixtures : list T) : result (Error T Err) (list T) :=
  s ← for_each (visit (size dependencies)) fixtures (mkSort [] ∅ ∅);
  Ok (sorted s).

(** The dependency loop of [visit]. *)
Definition visit_deps (fuel : nat) (name : T) (s1 : SortState T)
  : result (Error T Err) (SortState T) :=
  match dependencies !! name with
  | Some deps =>
      match fuel with
      | 0 => OutOfFuel
      | S fuel' => for_each (visit fuel') deps s1
      end
  | None => Ok s1
  end.

(** The edge relation the sorter follows. *)
Definition edge (n d : T) : Prop :=
  ∃ deps, dependencies !! n = Some deps ∧ d ∈ deps.

(** The names the sorter reaches from [fixtures]. *)
Definition reached (fixtures : list T) (x : T) : Prop :=
  ∃ r, r ∈ fixtures ∧ rtc edge r x.

(** What a run of visits over [roots] that returns has added to the state. *)
Definition extends (roots : list T) (s s' : SortState T) (new : list T) : Prop :=
  sorted s' = sorted s ++ new ∧
  visited s' = visited s ∪ list_to_set new ∧
  visiting s' = visiting s ∧
  (∀ r, r ∈ roots → r ∈ visited s') ∧
  NoDup new ∧
  (∀ x, x ∈ new →
     (x ∉ visited s) ∧ (x ∉ visiting s) ∧ (∃ r, r ∈ roots ∧ rtc edge r x)) ∧
  (∀ i x d, new !! i = Some x → edge x d →
     d ∈ visited s ∨ (∃ j, j < i ∧ new !! j = Some d)).

End sortFixtures.

(** [order] lists every dependency strictly before its dependent. *)
Definition topological {T} (R : relation T) (order : list T) : Prop :=
  ∀ i x d, order !! i = Some x → R x d → ∃ j, j < i ∧ order !! j = Some d.

(** ** Fixtures and registries ([types.ts]) *)

(** What a call [cleanup()] does before [.catch] is reached: it returns a
    promise, which resolves ([None]) or rejects, or it throws. *)
Inductive Called (Err : Type) : Type :=
| Promised (rejected : option Err)
| Thrown (e : Err).
Arguments Promised {Err} rejected.
Arguments Thrown {Err} e.

Record FixtureResult (Value Err W : Type) : Type := mkResult {
  value : Value;
  cleanup : W → W * Called Err
}.
Arguments mkResult {Value Err W} value cleanup.
Arguments value {Value Err W} f.
Arguments cleanup {Value Err W} f.

Module Fixture.
Record t (Value Err W : Type) : Type := mk {
  dependencies : list string;
  setup : gmap string Value → W → W * (Err + FixtureResult Value Err W)
}.
Arguments mk {Value Err W} dependencies setup.
Arguments dependencies {Value Err W} t.
Arguments setup {Value Err W} t.
End Fixture.

(** [defineFixture] only pairs its two arguments. *)
Definition defineFixture {Value Err W} (dependencies : list string)
    (setup : gmap string Value → W → W * (Err + FixtureResult Value Err W))
  : Fixture.t Value Err W :=
  Fixture.mk dependencies setup.

(** The property names every object inherits from [Object.prototype]; none
    of the inherited values is falsy and none has [dependencies] or
    [setup]. *)
Definition Object_prototype : list string :=
  ["constructor"; "hasOwnProperty"; "isPrototypeOf"; "propertyIsEnumerable";
   "toLocaleString"; "toString"; "valueOf"; "__proto__";
   "__defineGetter__"; "__defineSetter__"; "__lookupGetter__"; "__lookupSetter__"].

(** A JS [Set] of names iterates in insertion order. *)
Definition Set_add (x : string) (l : list string) : list string :=
  if decide (x ∈ l) then l else l ++ [x].

Definition Set_from (l : list string) : list string :=
  foldl (λ acc x, Set_add x acc) [] l.

(** [Object.fromEntries]: a later entry overwrites an earlier one. *)
Definition fromEntries {A} (l : list (string * A)) : gmap string A :=
  foldl (λ m kv, <[kv.1 := kv.2]> m) ∅ l.

Record Graph : Type := mkGraph {
  dependencies : gmap string (list string);
  toLoad : list string
}.

Section Fixtures.
Context {Value Err W : Type}.

Abbreviation Fixture := (Fixture.t Value Err W).
Abbreviation Cleanup := (W → W * Called Err).
Abbreviation Err' := (Error string Err).

(** What [registry[name]] can be when it is not falsy. *)
Inductive Entry : Type :=
| Registered (fixture : Fixture)
| Inherited.

Definition getFixture (registry : gmap string Fixture) (name : string)
  : result Err' Entry :=
  match registry !! name with
  | Some fixture => Ok (Registered fixture)
  | None =>
      if decide (name ∈ Object_prototype) then Ok Inherited
      else Throw (FixtureNotFound name)
  end.

(** [[...fixture.dependencies]] *)
Definition spread (fixture : Entry) : result Err' (list string) :=
  match fixture with
  | Registered fixture => Ok (Fixture.dependencies fixture)
  | Inherited => Throw NotIterable
  end.

(** The [state] object of [createFixtures]. *)
Record State : Type := mkState {
  deps : option (gmap string Value);
  cleanups : list (string * Cleanup)
}.

Inductive Event : Type :=
| SetupCall (name : string) (passed : gmap string Value) (returned : Err + Value)
| CleanupCall (name : string) (rejected : option Err)
| CleanupThrow (name : string) (e : Err).

(** What one call of [setup], [teardown] or [get] leaves behind. *)
Record Run (A : Type) : Type := mkRun {
  final : State;
  world : W;
  events : list Event;
  outcome : result Err' A
}.
Arguments mkRun {A} final world events outcome.
Arguments final {A} r.
Arguments world {A} r.
Arguments events {A} r.
Arguments outcome {A} r.

Definition setup_names (evs : list Event) : list string :=
  omap (λ ev, match ev with SetupCall name _ _ => Some name | _ => None end) evs.

Definition cleanup_names (evs : list Event) : list string :=
  omap (λ ev, match ev with
              | CleanupCall name _ | CleanupThrow name _ => Some name
              | _ => None
              end) evs.

(** The cleanups that threw instead of returning a promise. *)
Definition thrown (evs : list Event) : list (string * Err) :=
  omap (λ ev, match ev with CleanupThrow name e => Some (name, e) | _ => None end) evs.

(** The world after the calls of [cs], one after the other. *)
Definition applied (cs : list Cleanup) (w : W) : W :=
  foldl (λ w cleanup, (cleanup w).1) w cs.

(** Names whose setup returned, the failures, and the record of values the
    returned setups have built. *)
Definition succeeded (evs : list Event) : list string :=
  omap (λ ev, match ev with SetupCall name _ (inr _) => Some name | _ => None end) evs.

Definition failures (evs : list Event) : list (string * Err) :=
  omap (λ ev, match ev with SetupCall name _ (inl e) => Some (name, e) | _ => None end) evs.

(** How many times the setup operation of [name] was invoked. *)
Definition calls (name : string) (evs : list Event) : nat :=
  length (filter (λ n, n = name) (setup_names evs)).

Definition values_of (evs : list Event) : gmap string Value :=
  foldl (λ m ev, match ev with SetupCall name _ (inr v) => <[name := v]> m | _ => m end)
    ∅ evs.

Section createFixtures.
Variable registry : gmap string Fixture.
Variable requested : list string.

Definition initial : State := mkState None [].

Fixpoint loadDeps (fuel : nat) (n : string) (g : Graph) : result Err' Graph :=
  if decide (is_Some (dependencies g !! n)) then Ok g
  else
    fixture ← getFixture registry n;
    d ← spread fixture;
    let g1 := mkGraph (<[n := d]> (dependencies g)) (toLoad g) in
    match fuel with
    | 0 => OutOfFuel
    | S fuel' =>
        for_each
          (λ dep g, loadDeps fuel' dep (mkGraph (dependencies g) (Set_add dep (toLoad g))))
          d g1
    end.

Definition buildGraph : result Err' Graph :=
  for_each (loadDeps (size registry)) requested (mkGraph ∅ (Set_from requested)).

Definition plan : result Err' (list string) :=
  g ← buildGraph; sortFixtures (dependencies g) (toLoad g).

(** The body of the [try]: [values] is the local record, [st] the shared
    [state] whose [cleanups] array grows by [push]. *)
Fixpoint setup_each (names : list string) (values : gmap string Value)
    (st : State) (w : W) (evs : list Event) : Run (gmap string Value) :=
  match names with
  | [] => mkRun st w evs (Ok values)
  | name :: rest =>
      match getFixture registry name with
      | Ok (Registered fixture) =>
          match Fixture.setup fixture values w with
          | (w', inr result) =>
              setup_each rest (<[name := value result]> values)
                (mkState (deps st) (cleanups st ++ [(name, cleanup result)])) w'
                (evs ++ [SetupCall name values (inr (value result))])
          | (w', inl error) =>
              mkRun st w' (evs ++ [SetupCall name values (inl error)])
                (Throw (Raised error))
          end
      | Ok Inherited => mkRun st w evs (Throw NotCallable)
      | Throw e => mkRun st w evs (Throw e)
      | OutOfFuel => mkRun st w evs OutOfFuel
      end
  end.

(** [for (const cleanup of cs) await cleanup().catch(() => {})]: a
    rejection is dropped and the loop goes on; a cleanup that throws
    leaves the loop with its error. *)
Fixpoint cleanup_each (cs : list (string * Cleanup)) (w : W) (evs : list Event)
  : W * list Event * option Err :=
  match cs with
  | [] => (w, evs, None)
  | (name, cleanup) :: rest =>
      match cleanup w with
      | (w', Promised rejected) =>
          cleanup_each rest w' (evs ++ [CleanupCall name rejected])
      | (w', Thrown e) => (w', evs ++ [CleanupThrow name e], Some e)
      end
  end.

(** The body of the [try] as [setup] runs it on the sorted names. *)
Definition tried (sorted : list string) (st : State) (w : W)
  : Run (gmap string Value) :=
  setup_each sorted ∅ (mkState (deps st) []) w [].

Definition setup (st : State) (w : W) : Run unit :=
  match plan with
  | Ok sorted =>
      let r := tried sorted st w in
      match outcome r with
      | Ok values =>
          mkRun (mkState (Some values) (cleanups (final r))) (world r) (events r)
            (Ok tt)
      | Throw error =>
          match cleanup_each (reverse (cleanups (final r))) (world r) (events r) with
          | (w', evs, None) => mkRun (mkState None []) w' evs (Throw error)
          | (w', evs, Some e) => mkRun (final r) w' evs (Throw (Raised e))
          end
      | OutOfFuel => mkRun (final r) (world r) (events r) OutOfFuel
      end
  | Throw e => mkRun st w [] (Throw e)
  | OutOfFuel => mkRun st w [] OutOfFuel
  end.

(** [state.cleanups.reverse()] reverses the array of the state in place;
    the two assignments after the loop are reached only when the loop
    ends. *)
Definition teardown (st : State) (w : W) : Run unit :=
  match cleanup_each (reverse (cleanups st)) w [] with
  | (w', evs, None) => mkRun (mkState None []) w' evs (Ok tt)
  | (w', evs, Some e) =>
      mkRun (mkState (deps st) (reverse (cleanups st))) w' evs (Throw (Raised e))
  end.

Definition get (st : State) (w : W) : Run (gmap string (option Value)) :=
  match deps st with
  | None => mkRun st w [] (Throw NotInitialized)
  | Some d =>
      mkRun st w [] (Ok (fromEntries (map (λ name, (name, d !! name)) requested)))
  end.

(** The declared-dependency relation of the registry, the names a request
    needs, and the states an instance can be in. *)
Definition dep (n d : string) : Prop :=
  ∃ fixture, registry !! n = Some fixture ∧ d ∈ Fixture.dependencies fixture.

Definition closure (n : string) : Prop :=
  ∃ r, r ∈ requested ∧ rtc dep r n.

Definition missing (n : string) : Prop := registry !! n = None.

(** [[...getFixture(registry, n).dependencies]] *)
Definition declared (n : string) : result Err' (list string) :=
  fixture ← getFixture registry n; spread fixture.

(** The error graph building ends with at a name [m] that is no own key
    of the registry. *)
Definition unregistered (e : Err') (m : string) : Prop :=
  (e = FixtureNotFound m ∧ m ∉ Object_prototype) ∨
  (e = NotIterable ∧ m ∈ Object_prototype).

(** The [forEach] of [loadDeps]. *)
Definition loadDeps_each (fuel : nat) (d : list string) (g1 : Graph)
  : result Err' Graph :=
  match fuel with
  | 0 => OutOfFuel
  | S fuel' =>
      for_each
        (λ dep g, loadDeps fuel' dep (mkGraph (dependencies g) (Set_add dep (toLoad g))))
        d g1
  end.

(** The edges recorded so far are the registry's. *)
Definition mirrors (g : Graph) : Prop :=
  ∀ m ds, dependencies g !! m = Some ds →
    ∃ fixture, registry !! m = Some fixture ∧ Fixture.dependencies fixture = ds.

(** What loading [roots] has added to the graph: every new node is reached
    from a root and has all its dependencies recorded and queued. *)
Definition loaded (roots : list string) (g g' : Graph) : Prop :=
  dom (dependencies g) ⊆ dom (dependencies g') ∧
  (∀ x, x ∈ toLoad g → x ∈ toLoad g') ∧
  (∀ r, r ∈ roots → r ∈ dom (dependencies g')) ∧
  (∀ m, m ∈ dom (dependencies g') →
     m ∈ dom (dependencies g) ∨
     ((∃ r, r ∈ roots ∧ rtc dep r m) ∧
      ∀ d, dep m d → d ∈ dom (dependencies g') ∧ d ∈ toLoad g')) ∧
  (∀ x, x ∈ toLoad g' → x ∈ toLoad g ∨ ∃ r, r ∈ roots ∧ rtc dep r x) ∧
  (mirrors g → mirrors g') ∧
  (NoDup (toLoad g) → NoDup (toLoad g')).

(** ... and every root has been queued in [toLoad]. *)
Definition queued (roots : list string) (g g' : Graph) : Prop :=
  loaded roots g g' ∧ ∀ r, r ∈ roots → r ∈ toLoad g'.


End createFixtures.
End Fixtures.

Arguments State : clear implicits.
Arguments Event : clear implicits.
Arguments Run : clear implicits.
Arguments mkRun {Value Err W A} final world events outcome.
Arguments final {Value Err W A} r.
Arguments world {Value Err W A} r.
Arguments events {Value Err W A} r.
Arguments outcome {Value Err W A} r.

(** * The scenarios of the test suite *)

(** Values and errors are strings and the world is a log the operations
    append to, as the arrays [setupOrder] and [cleanupOrder] of the tests. *)
Abbreviation TestFixture := (Fixture.t string string (list string)).

(** A fixture whose setup returns [make values]; its cleanup rejects with
    [rejects] when that is [Some]. *)
Definition returning (name : string) (dependencies : list string)
    (make : gmap string string → string) (rejects : option string) : TestFixture :=
  defineFixture dependencies (λ values log,
    (log ++ ["setup " +:+ name],
     inr (mkResult (make values)
            (λ log, (log ++ ["cleanup " +:+ name], Promised rejects))))).

(** A fixture whose cleanup is not an [async] function and throws [error]:
    [cleanup: () => { throw new Error(error) }]. *)
Definition returning_unsafe (name : string) (dependencies : list string)
    (make : gmap string string → string) (error : string) : TestFixture :=
  defineFixture dependencies (λ values log,
    (log ++ ["setup " +:+ name],
     inr (mkResult (make values)
            (λ log, (log ++ ["cleanup " +:+ name], Thrown error))))).

(** A fixture whose setup throws [error]. *)
Definition throwing (name : string) (dependencies : list string) (error : string)
  : TestFixture :=
  defineFixture dependencies (λ values log, (log ++ ["setup " +:+ name], inl error)).

(** [`${prefix}${values[name]}`] *)
Definition template (prefix name : string) (values : gmap string string) : string :=
  prefix +:+ default "undefined" (values !! name).

Definition chain_registry : gmap string TestFixture :=
  <["a" := returning "a" [] (λ _, "a") None]>
  (<["b" := returning "b" ["a"] (template "b-" "a") None]>
  (<["c" := returning "c" ["b"] (template "c-" "b") None]>
  (<["d" := returning "d" ["c"] (template "d-" "c") None]> ∅))).

Definition shared_registry : gmap string TestFixture :=
  <["shared" := returning "shared" [] (λ _, "shared-value") None]>
  (<["foo" := returning "foo" ["shared"] (template "foo-" "shared") None]>
  (<["bar" := returning "bar" ["shared"] (template "bar-" "shared") None]> ∅)).

Definition cleanup_fails_registry : gmap string TestFixture :=
  <["a" := returning "a" [] (λ _, "a") None]>
  (<["b" := returning "b" ["a"] (λ _, "b") (Some "cleanup failed")]>
  (<["c" := returning "c" ["b"] (λ _, "c") None]> ∅)).

Definition circular_registry : gmap string TestFixture :=
  <["a" := returning "a" ["b"] (λ _, "a") None]>
  (<["b" := returning "b" ["a"] (λ _, "b") None]> ∅).

Definition setup_fails_registry : gmap string TestFixture :=
  <["a" := returning "a" [] (λ _, "a") None]>
  (<["b" := returning "b" ["a"] (λ _, "b") None]>
  (<["c" := throwing "c" ["b"] "setup failed"]> ∅)).

(** The registries of [should throw if cleanup fails] and of [should
    cleanup already-created fixtures when setup fails] with the cleanup of
    [b] written without [async]. *)
Definition cleanup_throws_registry : gmap string TestFixture :=
  <["a" := returning "a" [] (λ _, "a") None]>
  (<["b" := returning_unsafe "b" ["a"] (λ _, "b") "boom"]>
  (<["c" := returning "c" ["b"] (λ _, "c") None]> ∅)).

Definition rollback_throws_registry : gmap string TestFixture :=
  <["a" := returning "a" [] (λ _, "a") None]>
  (<["b" := returning_unsafe "b" ["a"] (λ _, "b") "boom"]>
  (<["c" := throwing "c" ["b"] "setup failed"]> ∅)).

(** Inputs outside the test suite. *)
Definition one_missing_registry : gmap string TestFixture :=
  <["a" := returning "a" ["zz"] (λ _, "a") None]> ∅.


Definition shared_after_failure_registry : gmap string TestFixture :=
  <["x" := throwing "x" [] "setup failed"]> shared_registry.

Definition cycle_and_missing_registry : gmap string TestFixture :=
  <["a" := returning "a" ["b"; "zz"] (λ _, "a") None]>
  (<["b" := returning "b" ["a"] (λ _, "b") None]> ∅).

Definition start : State string string (list string) := initial.

(** A dependency map for the sorter alone: [c] has no entry. *)
Definition sorter_example : gmap string (list string) :=
  <["a" := ["b"; "c"]]> (<["b" := ["c"]]> ∅).

(** The registry of the test [should setup multiple unrelated dependencies]. *)
Definition unrelated_registry : gmap string TestFixture :=
  <["foo" := returning "foo" [] (λ _, "test") None]>
  (<["bar" := returning "bar" [] (λ _, "42") None]>
  (<["baz" := returning "baz" [] (λ _, "true") None]> ∅)).

Ltac solve_dep :=
  eexists; split; [vm_compute; reflexivity | simpl; set_solver].

Ltac solve_requested :=
  eexists; split; [|apply rtc_refl]; set_solver.

(** * Loops *)

(** A loop that does not return stopped at one of its elements. *)
Lemma for_each_stops {E A S} (body : A → S → result E S) l s r :
  for_each body l s = r → (∀ s', r ≠ Ok s') →
  ∃ l1 x l2 s1, l = l1 ++ x :: l2 ∧ for_each body l1 s = Ok s1 ∧ body x s1 = r.
Proof.
  intros Hrun Hr. revert s Hrun. induction l as [|x l IH]; intros s Hrun; simpl in Hrun.
  - by destruct (Hr s).
  - destruct (body x s) as [s1| |] eqn:Ex; simpl in Hrun.
    + destruct (IH _ Hrun) as (l1 & y & l2 & s2 & -> & Hpre & Hy).
      exists (x :: l1), y, l2, s2. split_and!; [done| |done].
      simpl. by rewrite Ex.
    + exists [], x, l, s. by subst.
    + exists [], x, l, s. by subst.
Qed.

(** * Properties of the sorter *)

Section sortFixtures_correct.
Context {T : Type} `{Countable T} {Err : Type}.
Variable dependencies : gmap T (list T).

Abbreviation edge' := (edge dependencies).
Abbreviation visit' := (visit (Err := Err) dependencies).
Abbreviation visit_deps' := (visit_deps (Err := Err) dependencies).
Abbreviation extends' := (extends dependencies).
Abbreviation reached' := (reached dependencies).


Lemma extends_nil s : extends' [] s s [].
Proof.
  split_and!; simpl.
  - by rewrite app_nil_r.
  - set_solver.
  - done.
  - intros r Hr. by apply elem_of_nil in Hr.
  - constructor.
  - intros x Hx. by apply elem_of_nil in Hx.
  - intros i x d Hi. done.
Qed.

Lemma extends_trans r1 r2 s s1 s2 n1 n2 :
  extends' r1 s s1 n1 → extends' r2 s1 s2 n2 →
  extends' (r1 ++ r2) s s2 (n1 ++ n2).
Proof.
  intros (Hs1 & Hv1 & Hg1 & Hr1 & Hnd1 & Hx1 & Ht1)
         (Hs2 & Hv2 & Hg2 & Hr2 & Hnd2 & Hx2 & Ht2).
  split_and!.
  - by rewrite Hs2, Hs1, app_assoc.
  - rewrite Hv2, Hv1, list_to_set_app_L. set_solver.
  - congruence.
  - intros r [Hr|Hr]%elem_of_app; [|by auto].
    rewrite Hv2. apply elem_of_union_l. auto.
  - apply NoDup_app. split_and!; [done| |done].
    intros x Hx Hx'. destruct (Hx2 x Hx') as (Hn & _).
    apply Hn. rewrite Hv1. set_solver.
  - intros x [Hx|Hx]%elem_of_app.
    + destruct (Hx1 x Hx) as (? & ? & r & Hr & Hp).
      split_and!; [done..|]. exists r. split; [set_solver|done].
    + destruct (Hx2 x Hx) as (Hn & Hg & r & Hr & Hp).
      rewrite Hv1 in Hn. rewrite Hg1 in Hg.
      split_and!; [set_solver|done|]. exists r. split; [set_solver|done].
  - intros i x d Hi Hd. apply lookup_app_Some in Hi as [Hi|[Hlen Hi]].
    + destruct (Ht1 i x d Hi Hd) as [?|(j & Hj & Hjd)]; [by left|].
      right. exists j. split; [done|]. by apply lookup_app_l_Some.
    + destruct (Ht2 _ x d Hi Hd) as [Hv|(j & Hj & Hjd)].
      * rewrite Hv1 in Hv. apply elem_of_union in Hv as [?|Hv]; [by left|].
        right. apply elem_of_list_to_set, list_elem_of_lookup in Hv as [j Hj].
        exists j. split; [|by apply lookup_app_l_Some].
        apply lookup_lt_Some in Hj. lia.
      * right. exists (length n1 + j). split; [lia|].
        rewrite lookup_app_r by lia. by replace (length n1 + j - length n1) with j by lia.
Qed.

Lemma extends_done name s : name ∈ visited s → extends' [name] s s [].
Proof.
  intros Hv. destruct (extends_nil s) as (Hs & Hv' & Hg & _ & Hnd & Hx & Ht).
  split_and!; [exact Hs|exact Hv'|exact Hg| |exact Hnd| |exact Ht].
  - by intros r ->%list_elem_of_singleton.
  - intros x Hin. by apply elem_of_nil in Hin.
Qed.

(** Closing a node once its dependencies are done. *)
Lemma extends_close name s s2 new :
  name ∉ visited s → name ∉ visiting s →
  extends' (default [] (dependencies !! name)) (enter name s) s2 new →
  extends' [name] s (leave name s2) (new ++ [name]).
Proof.
  intros Hnv Hng (Hs & Hv & Hg & Hr & Hnd & Hx & Ht). simpl in *.
  assert (Hnew : name ∉ new).
  { intros Hin. destruct (Hx _ Hin) as (_ & Hn & _). set_solver. }
  split_and!; simpl.
  - by rewrite Hs, app_assoc.
  - rewrite Hv, list_to_set_app_L. set_solver.
  - rewrite Hg. set_solver.
  - intros r Hr'. set_solver.
  - apply NoDup_app. split_and!; [done| |apply NoDup_singleton].
    intros x Hx' ->%list_elem_of_singleton. done.
  - intros x [Hx' | ->%list_elem_of_singleton]%elem_of_app.
    + destruct (Hx x Hx') as (? & Hn & r & Hr' & Hp).
      split_and!; [done|set_solver|]. exists name. split; [set_solver|].
      apply rtc_l with r; [|done].
      destruct (dependencies !! name) as [deps|] eqn:E; simpl in Hr'.
      * by exists deps.
      * by apply elem_of_nil in Hr'.
    + split_and!; [done..|]. exists name. split; [set_solver|done].
  - intros i x d Hi Hd. apply lookup_app_Some in Hi as [Hi|[Hlen Hi]].
    + destruct (Ht i x d Hi Hd) as [?|(j & Hj & Hjd)]; [by left|].
      right. exists j. split; [done|]. by apply lookup_app_l_Some.
    + apply list_lookup_singleton_Some in Hi as [Hi ->].
      destruct Hd as (deps & Hdeps & Hd). rewrite Hdeps in Hr. simpl in Hr.
      specialize (Hr d Hd). rewrite Hv in Hr.
      apply elem_of_union in Hr as [?|Hr]; [by left|].
      right. apply elem_of_list_to_set, list_elem_of_lookup in Hr as [j Hj].
      exists j. split; [|by apply lookup_app_l_Some].
      apply lookup_lt_Some in Hj. lia.
Qed.


Lemma visit_unfold fuel name s :
  visit' fuel name s =
    if decide (name ∈ visited s) then Ok s
    else if decide (name ∈ visiting s) then Throw (CircularDependency name)
    else s2 ← visit_deps' fuel name (enter name s); Ok (leave name s2).
Proof. by destruct fuel. Qed.

Lemma for_each_extends (body : T → SortState T → result (Error T Err) (SortState T)) :
  (∀ name s s', body name s = Ok s' → ∃ new, extends' [name] s s' new) →
  ∀ l s s', for_each body l s = Ok s' → ∃ new, extends' l s s' new.
Proof.
  intros Hbody. induction l as [|x l IH]; intros s s' Hrun; simpl in Hrun.
  - injection Hrun as <-. exists []. apply extends_nil.
  - destruct (body x s) as [s1| |] eqn:E; simpl in Hrun; try done.
    destruct (Hbody _ _ _ E) as [n1 H1].
    destruct (IH _ _ Hrun) as [n2 H2].
    exists (n1 ++ n2). by apply (extends_trans [x] l s s1 s' n1 n2).
Qed.

Lemma visit_extends fuel name s s' :
  visit' fuel name s = Ok s' → ∃ new, extends' [name] s s' new.
Proof.
  revert name s s'. induction fuel as [|fuel IH]; intros name s s';
    rewrite visit_unfold; intros Hrun.
  all: destruct (decide (name ∈ visited s)) as [Hv|Hv];
    [injection Hrun as <-; exists []; by apply extends_done|].
  all: destruct (decide (name ∈ visiting s)) as [Hg|Hg]; [done|].
  all: destruct (visit_deps' _ name _) as [s2| |] eqn:E2; simpl in Hrun; try done.
  all: injection Hrun as <-; unfold visit_deps in E2.
  all: destruct (dependencies !! name) as [deps|] eqn:E; try done.
  - injection E2 as <-. exists ([] ++ [name]).
    apply extends_close; [done..|]. rewrite E. apply extends_nil.
  - destruct (for_each_extends _ IH _ _ _ E2) as [new Hnew].
    exists (new ++ [name]). apply extends_close; [done..|]. by rewrite E.
  - injection E2 as <-. exists ([] ++ [name]).
    apply extends_close; [done..|]. rewrite E. apply extends_nil.
Qed.

Lemma visit_cycle fuel name s e :
  (∀ v, v ∈ visiting s → tc edge' v name) →
  visit' fuel name s = Throw e →
  ∃ c, e = CircularDependency c ∧ tc edge' c c ∧ rtc edge' name c.
Proof.
  revert name s e. induction fuel as [|fuel IH]; intros name s e Hstack;
    rewrite visit_unfold; intros Hrun.
  all: destruct (decide (name ∈ visited s)) as [Hv|Hv]; [done|].
  all: destruct (decide (name ∈ visiting s)) as [Hg|Hg];
    [injection Hrun as <-; exists name; split_and!; [done|by apply Hstack|done]|].
  all: destruct (visit_deps' _ name _) as [s2| |] eqn:E2; simpl in Hrun; try done.
  all: injection Hrun as <-; unfold visit_deps in E2.
  all: destruct (dependencies !! name) as [deps|] eqn:E; try done.
  apply for_each_stops in E2 as (l1 & x & l2 & s1 & -> & Hpre & Hx); [|done].
  apply (for_each_extends _ (visit_extends fuel)) in Hpre as (new & _ & _ & Hg1 & _).
  assert (Hedge : edge' name x).
  { exists (l1 ++ x :: l2). split; [done|]. set_solver. }
  apply IH in Hx as (c & -> & Hc & Hp).
  - exists c. split_and!; [done..|]. by apply rtc_l with x.
  - intros v. rewrite Hg1. simpl. intros [->%elem_of_singleton|Hv']%elem_of_union.
    + by apply tc_once.
    + apply tc_r with name; auto.
Qed.

Lemma visit_total fuel name s :
  size (dom dependencies ∖ visiting s) ≤ fuel → visit' fuel name s ≠ OutOfFuel.
Proof.
  revert name s. induction fuel as [|fuel IH]; intros name s Hsize;
    rewrite visit_unfold.
  all: destruct (decide (name ∈ visited s)) as [Hv|Hv]; [done|].
  all: destruct (decide (name ∈ visiting s)) as [Hg|Hg]; [done|].
  all: destruct (visit_deps' _ name _) as [s2| |] eqn:E2; simpl; try done.
  all: exfalso; unfold visit_deps in E2.
  all: destruct (dependencies !! name) as [deps|] eqn:E; try done.
  all: assert (Hlt : size (dom dependencies ∖ visiting (enter name s))
                     < size (dom dependencies ∖ visiting s)).
  1,3: apply subset_size; simpl; apply elem_of_dom_2 in E; set_solver.
  - lia.
  - apply for_each_stops in E2 as (l1 & x & l2 & s1 & -> & Hpre & Hx); [|done].
    apply (for_each_extends _ (visit_extends fuel)) in Hpre as (new & _ & _ & Hg1 & _).
    apply IH in Hx; [done|]. rewrite Hg1. lia.
Qed.

Abbreviation sortFixtures' := (sortFixtures (Err := Err) dependencies).


Lemma sortFixtures_total fixtures : sortFixtures' fixtures ≠ OutOfFuel.
Proof.
  unfold sortFixtures.
  destruct (for_each _ fixtures _) as [s| |] eqn:E; simpl; try done.
  apply for_each_stops in E as (l1 & x & l2 & s1 & -> & Hpre & Hx); [|done].
  apply (for_each_extends _ (visit_extends _)) in Hpre as (new & _ & _ & Hg1 & _).
  apply visit_total in Hx; [done|].
  rewrite Hg1. simpl. rewrite difference_empty_L, size_dom. done.
Qed.

Lemma sortFixtures_throw fixtures e :
  sortFixtures' fixtures = Throw e →
  ∃ c, e = CircularDependency c ∧ tc edge' c c ∧ reached' fixtures c.
Proof.
  unfold sortFixtures.
  destruct (for_each _ fixtures _) as [s| |] eqn:E; simpl; try done.
  intros [= <-].
  apply for_each_stops in E as (l1 & x & l2 & s1 & -> & Hpre & Hx); [|done].
  apply (for_each_extends _ (visit_extends _)) in Hpre as (new & _ & _ & Hg1 & _).
  apply visit_cycle in Hx as (c & -> & Hc & Hp).
  - exists c. split_and!; [done..|]. exists x. split; [set_solver|done].
  - intros v. rewrite Hg1. simpl. set_solver.
Qed.

Lemma sortFixtures_ok fixtures order :
  sortFixtures' fixtures = Ok order →
  NoDup order ∧ (∀ x, x ∈ order ↔ reached' fixtures x) ∧ topological edge' order.
Proof.
  unfold sortFixtures.
  destruct (for_each _ fixtures _) as [s| |] eqn:E; simpl; try done.
  intros [= <-].
  apply (for_each_extends _ (visit_extends _)) in E
    as (new & Hs & Hv & _ & Hr & Hnd & Hx & Ht).
  simpl in *. rewrite Hs.
  assert (Htopo : topological edge' new).
  { intros i x d Hi Hd. destruct (Ht i x d Hi Hd) as [Hin|?]; [|done]. set_solver. }
  split_and!; [done| |done].
  intros x. split.
  - intros Hin. by destruct (Hx x Hin) as (_ & _ & ?).
  - intros (r & Hr' & Hp).
    assert (Hin : r ∈ new).
    { apply Hr in Hr'. rewrite Hv in Hr'. set_solver. }
    clear Hr'. induction Hp as [r|r y z Hry Hyz IH]; [done|].
    apply IH. apply list_elem_of_lookup in Hin as [i Hi].
    destruct (Htopo i r y Hi Hry) as (j & _ & Hj).
    apply list_elem_of_lookup. by exists j.
Qed.

End sortFixtures_correct.

Section topological.
Context {T : Type} (R : relation T).

Lemma topological_tc order i x y :
  topological R order → order !! i = Some x → tc R x y →
  ∃ j, j < i ∧ order !! j = Some y.
Proof.
  intros Htopo Hi Hp. revert i Hi. induction Hp as [x y Hxy|x y z Hxy Hyz IH]; intros i Hi.
  - by apply (Htopo i x y).
  - destruct (Htopo i x y Hi Hxy) as (j & Hj & Hjy).
    destruct (IH j Hjy) as (k & Hk & Hkz). exists k. split; [lia|done].
Qed.

Lemma topological_acyclic order x :
  NoDup order → topological R order → x ∈ order → ¬ tc R x x.
Proof.
  intros Hnd Htopo [i Hi]%list_elem_of_lookup Hp.
  destruct (topological_tc order i x x Htopo Hi Hp) as (j & Hj & Hjx).
  pose proof (NoDup_lookup _ _ _ _ Hnd Hi Hjx). lia.
Qed.
End topological.

Section sortFixtures_outcome.
Context {T : Type} `{Countable T} {Err : Type}.
Variable dependencies : gmap T (list T).
Variable fixtures : list T.

Lemma sortFixtures_acyclic :
  (∀ c, reached dependencies fixtures c → ¬ tc (edge dependencies) c c) →
  ∃ order, sortFixtures (Err := Err) dependencies fixtures = Ok order.
Proof.
  intros Hacyc.
  destruct (sortFixtures dependencies fixtures) as [order|e|] eqn:E.
  - by exists order.
  - apply sortFixtures_throw in E as (c & _ & Hc & Hr). by destruct (Hacyc c).
  - by apply sortFixtures_total in E.
Qed.

Lemma sortFixtures_cyclic c :
  reached dependencies fixtures c → tc (edge dependencies) c c →
  ∃ c', sortFixtures (Err := Err) dependencies fixtures = Throw (CircularDependency c')
        ∧ tc (edge dependencies) c' c' ∧ reached dependencies fixtures c'.
Proof.
  intros Hr Hc.
  destruct (sortFixtures dependencies fixtures) as [order|e|] eqn:E.
  - apply sortFixtures_ok in E as (Hnd & Hin & Htopo).
    apply Hin in Hr. by destruct (topological_acyclic _ order c Hnd Htopo Hr).
  - apply sortFixtures_throw in E as (c' & -> & Hc' & Hr'). by exists c'.
  - by apply sortFixtures_total in E.
Qed.
End sortFixtures_outcome.

(** * Properties of the graph builder *)

Lemma for_each_chain {E A S} (body : A → S → result E S)
    (R : list A → S → S → Prop) :
  (∀ s, R [] s s) →
  (∀ x l s s1 s2, R [x] s s1 → R l s1 s2 → R (x :: l) s s2) →
  (∀ x s s', body x s = Ok s' → R [x] s s') →
  ∀ l s s', for_each body l s = Ok s' → R l s s'.
Proof.
  intros Hnil Hcons Hbody. induction l as [|x l IH]; intros s s' Hrun; simpl in Hrun.
  - injection Hrun as <-. apply Hnil.
  - destruct (body x s) as [s1| |] eqn:Ex; simpl in Hrun; try done.
    apply Hcons with s1; auto.
Qed.

Lemma elem_of_Set_add x y l : x ∈ Set_add y l ↔ x = y ∨ x ∈ l.
Proof. unfold Set_add. case_decide; set_solver. Qed.

Lemma NoDup_Set_add y l : NoDup l → NoDup (Set_add y l).
Proof.
  unfold Set_add. case_decide; [done|]. intros Hnd.
  apply NoDup_app. split_and!; [done| |apply NoDup_singleton].
  by intros x Hx ->%list_elem_of_singleton.
Qed.

Lemma Set_from_spec l : NoDup (Set_from l) ∧ ∀ x, x ∈ Set_from l ↔ x ∈ l.
Proof.
  unfold Set_from.
  assert (Hgen : ∀ acc, NoDup acc →
    NoDup (foldl (λ acc x, Set_add x acc) acc l) ∧
    ∀ x, x ∈ foldl (λ acc x, Set_add x acc) acc l ↔ x ∈ acc ∨ x ∈ l).
  { induction l as [|y l IH]; intros acc Hacc; simpl.
    - split; [done|]. set_solver.
    - destruct (IH (Set_add y acc) (NoDup_Set_add y acc Hacc)) as [Hnd Hin].
      split; [done|]. intros x. rewrite Hin, elem_of_Set_add. set_solver. }
  destruct (Hgen [] (NoDup_nil_2)) as [Hnd Hin]. split; [done|].
  intros x. rewrite Hin. set_solver.
Qed.

Section buildGraph_correct.
Context {Value Err W : Type}.
Variable registry : gmap string (Fixture.t Value Err W).
Variable requested : list string.

Abbreviation dep' := (dep registry).
Abbreviation loadDeps' := (loadDeps registry).
Abbreviation loadDeps_each' := (loadDeps_each registry).
Abbreviation mirrors' := (mirrors registry).
Abbreviation loaded' := (loaded registry).
Abbreviation queued' := (queued registry).



Lemma loaded_nil g : loaded' [] g g.
Proof. split_and!; auto. intros r Hr. by apply elem_of_nil in Hr. Qed.

Lemma loaded_cons x l g g1 g2 :
  loaded' [x] g g1 → loaded' l g1 g2 → loaded' (x :: l) g g2.
Proof.
  intros (Hd1 & Hq1 & Hr1 & Hn1 & Ht1 & Hm1 & Hnd1)
         (Hd2 & Hq2 & Hr2 & Hn2 & Ht2 & Hm2 & Hnd2).
  split_and!; auto.
  - set_solver.
  - intros r [->|Hr]%elem_of_cons; [|by auto]. apply Hd2, Hr1. set_solver.
  - intros m Hm. destruct (Hn2 m Hm) as [Hm1'|[(r & Hr & Hp) Hcl]].
    + destruct (Hn1 m Hm1') as [?|[(r & Hr & Hp) Hcl]]; [by left|].
      right. split.
      * exists r. split; [set_solver|done].
      * intros d Hd. destruct (Hcl d Hd). split; auto.
    + right. split; [|done]. exists r. split; [set_solver|done].
  - intros y Hy. destruct (Ht2 y Hy) as [Hy1|(r & Hr & Hp)].
    + destruct (Ht1 y Hy1) as [?|(r & Hr & Hp)]; [by left|].
      right. exists r. split; [set_solver|done].
    + right. exists r. split; [set_solver|done].
Qed.


Lemma declared_spec n :
  declared registry n =
    match registry !! n with
    | Some fixture => Ok (Fixture.dependencies fixture)
    | None =>
        if decide (n ∈ Object_prototype) then Throw NotIterable
        else Throw (FixtureNotFound n)
    end.
Proof.
  unfold declared, getFixture. destruct (registry !! n); [done|]. by case_decide.
Qed.

Lemma loadDeps_unfold fuel n g :
  loadDeps' fuel n g =
    if decide (is_Some (dependencies g !! n)) then Ok g
    else
      d ← declared registry n;
      loadDeps_each' fuel d (mkGraph (<[n := d]> (dependencies g)) (toLoad g)).
Proof.
  unfold declared.
  destruct fuel; simpl; case_decide; try done;
    by destruct (getFixture registry n) as [[fixture|]| |].
Qed.


Lemma loaded_done n g : is_Some (dependencies g !! n) → loaded' [n] g g.
Proof.
  intros Hn. destruct (loaded_nil g) as (Hd & Hq & _ & Hm & Ht & Hmi & Hnd).
  split_and!; auto.
  intros r ->%list_elem_of_singleton. by apply elem_of_dom.
Qed.

Lemma queued_nil g : queued' [] g g.
Proof. split; [apply loaded_nil|]. intros r Hr. by apply elem_of_nil in Hr. Qed.

Lemma queued_cons x l g g1 g2 :
  queued' [x] g g1 → queued' l g1 g2 → queued' (x :: l) g g2.
Proof.
  intros [H1 Hq1] [H2 Hq2]. split; [by apply loaded_cons with g1|].
  intros r [->|Hr]%elem_of_cons; [|by auto].
  destruct H2 as (_ & Hq & _). apply Hq, Hq1. set_solver.
Qed.

(** [toLoad.add(dep); loadDeps(dep)] *)
Lemma queued_add x g g' :
  loaded' [x] (mkGraph (dependencies g) (Set_add x (toLoad g))) g' → queued' [x] g g'.
Proof.
  intros (Hd & Hq & Hr & Hn & Ht & Hm & Hnd). simpl in *.
  assert (Hx : x ∈ toLoad g') by (apply Hq, elem_of_Set_add; by left).
  split; [|by intros r ->%list_elem_of_singleton].
  split_and!; auto.
  - intros y Hy. apply Hq, elem_of_Set_add. by right.
  - intros y Hy. destruct (Ht y Hy) as [[->|?]%elem_of_Set_add|?]; auto.
    right. exists x. split; [set_solver|done].
  - intros Hnd'. by apply Hnd, NoDup_Set_add.
Qed.

(** [dependencies.set(n, d)] followed by the [forEach] over [d]. *)
Lemma loaded_close n fixture g g' :
  registry !! n = Some fixture →
  queued' (Fixture.dependencies fixture)
    (mkGraph (<[n := Fixture.dependencies fixture]> (dependencies g)) (toLoad g)) g' →
  loaded' [n] g g'.
Proof.
  intros Hn [(Hd & Hq & Hr & Hnew & Ht & Hm & Hnd) Hqd]. simpl in *.
  rewrite dom_insert_L in Hd, Hnew.
  assert (Hstep : ∀ r, r ∈ Fixture.dependencies fixture → dep' n r).
  { intros r Hr'. by exists fixture. }
  split_and!; auto.
  - set_solver.
  - intros r ->%list_elem_of_singleton. set_solver.
  - intros m Hm'. destruct (Hnew m Hm') as [[->%elem_of_singleton|?]%elem_of_union
                                           |[(r & Hr' & Hp) Hcl]].
    + right. split; [exists n; split; [set_solver|done]|].
      intros d (fixture' & Hf' & Hd'). rewrite Hn in Hf'. injection Hf' as <-. auto.
    + by left.
    + right. split; [|done]. exists n. split; [set_solver|].
      apply rtc_l with r; auto.
  - intros y Hy. destruct (Ht y Hy) as [?|(r & Hr' & Hp)]; [by left|].
    right. exists n. split; [set_solver|]. apply rtc_l with r; auto.
  - intros Hmi. apply Hm. intros m ds Hlook. simpl in Hlook.
    destruct (decide (n = m)) as [->|Hne].
    + rewrite lookup_insert_eq in Hlook. injection Hlook as <-. by exists fixture.
    + rewrite lookup_insert_ne in Hlook by done. by apply Hmi.
Qed.

Lemma loadDeps_loaded fuel n g g' :
  loadDeps' fuel n g = Ok g' → loaded' [n] g g'.
Proof.
  revert n g g'. induction fuel as [|fuel IH]; intros n g g';
    rewrite loadDeps_unfold; intros Hrun.
  all: destruct (decide (is_Some (dependencies g !! n))) as [Hin|Hin];
    [injection Hrun as <-; by apply loaded_done|].
  all: rewrite declared_spec in Hrun.
  all: destruct (registry !! n) as [fixture|] eqn:Hn; [|by case_decide].
  all: simpl in Hrun; try done.
  apply loaded_close with fixture; [done|].
  revert Hrun. apply for_each_chain.
  - apply queued_nil.
  - apply queued_cons.
  - intros x g0 g0' Hx. by apply queued_add, IH.
Qed.

Lemma loadDeps_missing fuel n g e :
  loadDeps' fuel n g = Throw e →
  ∃ m, unregistered e m ∧ missing registry m ∧ rtc dep' n m.
Proof.
  revert n g e. induction fuel as [|fuel IH]; intros n g e;
    rewrite loadDeps_unfold; intros Hrun.
  all: destruct (decide (is_Some (dependencies g !! n))) as [Hin|Hin]; [done|].
  all: rewrite declared_spec in Hrun.
  all: destruct (registry !! n) as [fixture|] eqn:Hn; simpl in Hrun; try done.
  1,3: exists n; split_and!; [|exact Hn|apply rtc_refl]; unfold unregistered;
       case_decide; injection Hrun as <-; [right|left]; done.
  apply for_each_stops in Hrun as (l1 & x & l2 & g1 & Hd & _ & Hx); [|done].
  apply IH in Hx as (m & He & Hm & Hp).
  exists m. split_and!; [done..|]. apply rtc_l with x; [|done].
  exists fixture. split; [done|]. rewrite Hd. set_solver.
Qed.

Lemma loadDeps_total fuel n g :
  size (dom registry ∖ dom (dependencies g)) ≤ fuel →
  loadDeps' fuel n g ≠ OutOfFuel.
Proof.
  revert n g. induction fuel as [|fuel IH]; intros n g Hsize;
    rewrite loadDeps_unfold.
  all: destruct (decide (is_Some (dependencies g !! n))) as [Hin|Hin]; [done|].
  all: rewrite declared_spec.
  all: destruct (registry !! n) as [fixture|] eqn:Hn; [|by case_decide].
  all: simpl; try done.
  all: assert (Hlt : size (dom registry ∖ ({[n]} ∪ dom (dependencies g)))
                     < size (dom registry ∖ dom (dependencies g))).
  1,3: apply subset_size; apply elem_of_dom_2 in Hn;
       rewrite <-elem_of_dom in Hin; set_solver.
  - lia.
  - intros Hrun.
    apply for_each_stops in Hrun as (l1 & x & l2 & g1 & Hd & Hpre & Hx); [|done].
    apply IH in Hx; [done|]. simpl.
    assert (Hsub : queued' l1 (mkGraph (<[n:=Fixture.dependencies fixture]> (dependencies g))
                                (toLoad g)) g1).
    { revert Hpre. apply for_each_chain.
      - apply queued_nil.
      - apply queued_cons.
      - intros y g0 g0' Hy. by apply queued_add, loadDeps_loaded with fuel. }
    destruct Hsub as [(Hdom & _) _]. simpl in Hdom. rewrite dom_insert_L in Hdom.
    assert (size (dom registry ∖ dom (dependencies g1))
            ≤ size (dom registry ∖ ({[n]} ∪ dom (dependencies g)))).
    { apply subseteq_size. set_solver. }
    lia.
Qed.

Abbreviation closure' := (closure registry requested).
Abbreviation buildGraph' := (buildGraph registry requested).
Abbreviation plan' := (plan registry requested).

Lemma closure_step n d : closure' n → dep' n d → closure' d.
Proof. intros (r & Hr & Hp) Hd. exists r. split; [done|]. by apply rtc_r with n. Qed.

Lemma closure_tc n d : closure' n → tc dep' n d → closure' d.
Proof.
  intros (r & Hr & Hp) Hd. exists r. split; [done|].
  etrans; [done|]. by apply tc_rtc.
Qed.

Lemma buildGraph_total : buildGraph' ≠ OutOfFuel.
Proof.
  unfold buildGraph. intros Hrun.
  apply for_each_stops in Hrun as (l1 & x & l2 & g1 & _ & _ & Hx); [|done].
  apply loadDeps_total in Hx; [done|].
  rewrite <-size_dom. apply subseteq_size. set_solver.
Qed.

Lemma buildGraph_missing e :
  buildGraph' = Throw e →
  ∃ m, unregistered e m ∧ missing registry m ∧ closure' m.
Proof.
  unfold buildGraph. intros Hrun.
  apply for_each_stops in Hrun as (l1 & x & l2 & g1 & Hreq & _ & Hx); [|done].
  apply loadDeps_missing in Hx as (m & He & Hm & Hp).
  exists m. split_and!; [done..|]. exists x. split; [|done].
  rewrite Hreq. set_solver.
Qed.

Lemma buildGraph_ok g :
  buildGraph' = Ok g →
  mirrors' g ∧ NoDup (toLoad g) ∧
  (∀ n, n ∈ dom (dependencies g) ↔ closure' n) ∧
  (∀ n, n ∈ toLoad g ↔ closure' n).
Proof.
  unfold buildGraph. intros Hrun.
  assert (Hl : loaded' requested (mkGraph ∅ (Set_from requested)) g).
  { revert Hrun. apply for_each_chain.
    - apply loaded_nil.
    - apply loaded_cons.
    - intros x g0 g0'. apply loadDeps_loaded. }
  destruct Hl as (_ & Hq & Hr & Hnew & Ht & Hm & Hnd). simpl in *.
  destruct (Set_from_spec requested) as [Hsnd Hsin].
  assert (Hdom : ∀ n, closure' n → n ∈ dom (dependencies g)).
  { intros n (r & Hr' & Hp). apply Hr in Hr'.
    induction Hp as [r|r y z Hry Hyz IH]; [done|]. apply IH.
    destruct (Hnew r Hr') as [Hin|[_ Hcl]]; [set_solver|]. by apply Hcl. }
  split_and!.
  - apply Hm. intros m ds Hlook. simpl in Hlook. by rewrite lookup_empty in Hlook.
  - by apply Hnd.
  - intros n. split; [|by apply Hdom].
    intros Hn. destruct (Hnew n Hn) as [Hin|[? _]]; [set_solver|done].
  - intros n. split.
    + intros Hn. destruct (Ht n Hn) as [Hin|?]; [|done].
      exists n. split; [by apply Hsin|done].
    + intros (r & Hr' & Hp). apply rtc_inv_r in Hp as [->|(y & Hp & Hyn)].
      * by apply Hq, Hsin.
      * assert (Hy : y ∈ dom (dependencies g)) by (apply Hdom; by exists r).
        destruct (Hnew y Hy) as [Hin|[_ Hcl]]; [set_solver|]. by apply Hcl.
Qed.

(** On the names of the closure the recorded edges are the registry's. *)
Lemma buildGraph_edge g n d :
  buildGraph' = Ok g → edge (dependencies g) n d ↔ closure' n ∧ dep' n d.
Proof.
  intros (Hm & _ & Hdom & _)%buildGraph_ok. split.
  - intros (ds & Hds & Hd). split; [apply Hdom; by apply elem_of_dom_2 in Hds|].
    destruct (Hm n ds Hds) as (fixture & Hf & <-). by exists fixture.
  - intros [Hn (fixture & Hf & Hd)].
    apply Hdom, elem_of_dom in Hn as [ds Hds].
    destruct (Hm n ds Hds) as (fixture' & Hf' & <-).
    exists (Fixture.dependencies fixture'). split; [done|]. congruence.
Qed.

Lemma buildGraph_reached g x :
  buildGraph' = Ok g → reached (dependencies g) (toLoad g) x ↔ closure' x.
Proof.
  intros Hg. destruct (buildGraph_ok g Hg) as (_ & _ & _ & Hq). split.
  - intros (r & Hr & Hp). apply Hq in Hr.
    induction Hp as [r|r y z Hry Hyz IH]; [done|]. apply IH.
    apply (buildGraph_edge g) in Hry as [_ Hry]; [|done]. by apply closure_step with r.
  - intros Hx. exists x. split; [by apply Hq|done].
Qed.

Lemma plan_total : plan' ≠ OutOfFuel.
Proof.
  unfold plan. destruct buildGraph' as [g| |] eqn:Hg; simpl; try done.
  - apply sortFixtures_total.
  - by apply buildGraph_total in Hg.
Qed.

Lemma plan_ok order :
  plan' = Ok order →
  NoDup order ∧ (∀ x, x ∈ order ↔ closure' x) ∧ topological dep' order ∧
  (∀ x, closure' x → ¬ missing registry x).
Proof.
  unfold plan. destruct buildGraph' as [g| |] eqn:Hg; simpl; try done.
  intros (Hnd & Hin & Htopo)%sortFixtures_ok.
  assert (Hmem : ∀ x, x ∈ order ↔ closure' x).
  { intros x. rewrite Hin. by apply buildGraph_reached. }
  split_and!; [done..| |].
  - intros i x d Hi Hd. apply (Htopo i x d Hi), (buildGraph_edge g); [done|].
    split; [|done]. apply Hmem, list_elem_of_lookup. by exists i.
  - intros x Hx. destruct (buildGraph_ok g Hg) as (Hm & _ & Hdom & _).
    apply Hdom, elem_of_dom in Hx as [ds Hds].
    destruct (Hm x ds Hds) as (fixture & Hf & _). unfold missing. by rewrite Hf.
Qed.

Lemma plan_throw e :
  plan' = Throw e →
  (buildGraph' = Throw e ∧
   ∃ m, unregistered e m ∧ missing registry m ∧ closure' m) ∨
  (∃ c, e = CircularDependency c ∧ tc dep' c c ∧ closure' c ∧
        ∀ x, closure' x → ¬ missing registry x).
Proof.
  unfold plan. destruct buildGraph' as [g| |] eqn:Hg; simpl; try done.
  - intros (c & -> & Hc & Hr)%sortFixtures_throw. right. exists c.
    split_and!; [done| |by apply (buildGraph_reached g)|].
    + revert Hc. apply (tc_congruence id). intros x y Hxy.
      by apply (buildGraph_edge g) in Hxy as [_ ?].
    + intros x Hx. destruct (buildGraph_ok g Hg) as (Hm & _ & Hdom & _).
      apply Hdom, elem_of_dom in Hx as [ds Hds].
      destruct (Hm x ds Hds) as (fixture & Hf & _). unfold missing. by rewrite Hf.
  - intros [= <-]. left. split; [done|]. by apply buildGraph_missing.
Qed.


Lemma plan_missing n :
  closure' n → missing registry n →
  ∃ e m, plan' = Throw e ∧ buildGraph' = Throw e ∧
         unregistered e m ∧ missing registry m ∧ closure' m.
Proof.
  intros Hn Hmiss. destruct plan' as [order|e|] eqn:Hp.
  - apply plan_ok in Hp as (_ & _ & _ & Hno). by destruct (Hno n).
  - apply plan_throw in Hp as [(Hg & m & He & Hm & Hc)|(c & _ & _ & _ & Hno)].
    + by exists e, m.
    + by destruct (Hno n).
  - by apply plan_total in Hp.
Qed.

Lemma plan_cyclic c :
  (∀ n, closure' n → ¬ missing registry n) →
  closure' c → tc dep' c c →
  ∃ c', plan' = Throw (CircularDependency c') ∧ tc dep' c' c' ∧ closure' c'.
Proof.
  intros Hmiss Hc Hcyc. destruct plan' as [order|e|] eqn:Hp.
  - apply plan_ok in Hp as (Hnd & Hin & Htopo & _).
    apply Hin in Hc. by destruct (topological_acyclic _ order c Hnd Htopo Hc).
  - apply plan_throw in Hp as [(_ & m & _ & Hm & Hcl)|(c' & -> & Hc' & Hcl & _)].
    + by destruct (Hmiss m).
    + by exists c'.
  - by apply plan_total in Hp.
Qed.

End buildGraph_correct.

(** * Properties of the lifecycle *)

Section lifecycle.
Context {Value Err W : Type}.
Variable registry : gmap string (Fixture.t Value Err W).
Variable requested : list string.

Abbreviation Event' := (Event Value Err).
Abbreviation State' := (State Value Err W).
Abbreviation setup_each' := (setup_each registry).
Abbreviation setup' := (setup registry requested).
Abbreviation get' := (get requested).

Lemma values_of_snoc (evs : list Event') ev :
  values_of (evs ++ [ev]) =
    match ev with
    | SetupCall name _ (inr v) => <[name := v]> (values_of evs)
    | _ => values_of evs
    end.
Proof. unfold values_of. by rewrite foldl_app. Qed.

Lemma thrown_nil (evs : list Event') : cleanup_names evs = [] → thrown evs = [].
Proof using Type.
  induction evs as [|[name passed out|name rejected|name e] evs IH]; simpl; auto; done.
Qed.

(** The loop over the cleanups: the calls made are a prefix of [cs], the
    whole of it unless a cleanup throws, which is then the last call. *)
Lemma cleanup_each_run (cs : list (string * (W → W * Called Err))) w (evs : list Event') :
  ∃ new,
    (cleanup_each cs w evs).1.2 = evs ++ new ∧
    cleanup_names new = take (length new) cs.*1 ∧ setup_names new = [] ∧
    length new ≤ length cs ∧
    (cleanup_each cs w evs).1.1 = applied (take (length new) cs.*2) w ∧
    match (cleanup_each cs w evs).2 with
    | None => length new = length cs ∧ thrown new = []
    | Some e => ∃ pre name, new = pre ++ [CleanupThrow name e] ∧ thrown pre = []
    end.
Proof using Type.
  revert w evs. induction cs as [|[name c] cs IH]; intros w evs; simpl.
  - exists []. by rewrite app_nil_r.
  - destruct (c w) as [w' [rejected|e]] eqn:Hc.
    + destruct (IH w' (evs ++ [CleanupCall name rejected]))
        as (new & Hev & Hn & Hs & Hl & Hw & Hout).
      exists (CleanupCall name rejected :: new). simpl.
      rewrite Hev, <-app_assoc, Hn at 1. rewrite Hw, Hc. simpl.
      split_and!; [done..|lia|done|].
      destruct (cleanup_each cs w' _).2 as [e|].
      * destruct Hout as (pre & name' & -> & Hpre).
        by exists (CleanupCall name rejected :: pre), name'.
      * destruct Hout as [-> Hthrown]. done.
    + exists [CleanupThrow name e]. simpl. rewrite Hc. split_and!; [done..|lia|done|].
      by exists [], name.
Qed.

Lemma setup_each_run names values (st : State') w (evs : list Event') :
  (∀ n, n ∈ names → ¬ missing registry n) →
  values = values_of evs →
  ∃ new, let r := setup_each' names values st w evs in
    events r = evs ++ new ∧
    cleanup_names new = [] ∧
    deps (final r) = deps st ∧
    (cleanups (final r)).*1 = (cleanups st).*1 ++ succeeded new ∧
    (∀ i name passed out,
       (evs ++ new) !! i = Some (SetupCall name passed out) → length evs ≤ i →
       passed = values_of (take i (evs ++ new)) ∧
       (∀ d, is_Some (values !! d) → is_Some (passed !! d)) ∧
       ∃ k, names !! k = Some name ∧
            ∀ k' d, k' < k → names !! k' = Some d → is_Some (passed !! d)) ∧
    match outcome r with
    | Ok values' =>
        values' = values_of (evs ++ new) ∧ setup_names new = names ∧
        succeeded new = names ∧ failures new = []
    | Throw e =>
        ∃ k err post, e = Raised err ∧ names = succeeded new ++ k :: post ∧
          setup_names new = succeeded new ++ [k] ∧ failures new = [(k, err)]
    | OutOfFuel => False
    end.
Proof.
  revert values st w evs. induction names as [|name rest IH];
    intros values st w evs Hreg Hvalues; simpl.
  - exists []. cbv zeta. simpl. rewrite !app_nil_r. split_and!; try done.
    intros i name passed out Hi Hlen. apply lookup_lt_Some in Hi. lia.
  - unfold getFixture. destruct (registry !! name) as [fixture|] eqn:Hf; cycle 1.
    { by destruct (Hreg name ltac:(set_solver)). }
    simpl.
    destruct (Fixture.setup fixture values w) as [w' [error|result]] eqn:Hrun.
    + exists [SetupCall name values (inl error)]. cbv zeta. simpl. split_and!; try done.
      * by rewrite app_nil_r.
      * intros i n passed out Hi Hlen.
        apply lookup_app_Some in Hi as [Hi|[_ Hi]].
        { apply lookup_lt_Some in Hi. lia. }
        apply list_lookup_singleton_Some in Hi as [Hi [= <- <- <-]].
        replace i with (length evs) by lia. rewrite take_app_length.
        split_and!; [done..|]. exists 0. split; [done|]. intros; lia.
      * by exists name, error, rest.
    + destruct (IH (<[name := value result]> values)
                  (mkState (deps st) (cleanups st ++ [(name, cleanup result)])) w'
                  (evs ++ [SetupCall name values (inr (value result))]))
        as (new & Hev & Hcl & Hdeps & Hcs & Hpassed & Hout).
      { intros n Hn. apply Hreg. set_solver. }
      { by rewrite values_of_snoc, Hvalues. }
      exists (SetupCall name values (inr (value result)) :: new).
      cbv zeta in *. simpl in *. rewrite <-app_assoc in Hev, Hpassed, Hout. simpl in *.
      split_and!; try done.
      * rewrite Hcs, fmap_app. simpl. by rewrite <-app_assoc.
      * intros i n passed out Hi Hlen.
        destruct (decide (i = length evs)) as [->|Hne].
        { rewrite lookup_app_r, Nat.sub_diag in Hi by lia. injection Hi as <- <- <-.
          rewrite take_app_length.
          split_and!; [done..|]. exists 0. split; [done|]. intros; lia. }
        destruct (Hpassed i n passed out Hi) as (Hp & Hmono & k & Hk & Hearlier).
        { rewrite length_app. simpl. lia. }
        split_and!; [done| |].
        { intros d Hd. apply Hmono. destruct (decide (name = d)) as [->|Hnd].
          - rewrite lookup_insert_eq. by eexists.
          - by rewrite lookup_insert_ne. }
        exists (S k). split; [done|]. intros [|k'] d Hlt Hd; simpl in Hd.
        { injection Hd as <-. apply Hmono. rewrite lookup_insert_eq. by eexists. }
        apply (Hearlier k'); [lia|done].
      * destruct (outcome _) as [values'|e|]; [|
          destruct Hout as (k & err & post & -> & -> & Hs & Hfail);
          exists k, err, post; split_and!; try done; by rewrite Hs|done].
        destruct Hout as (-> & Hs & Hs' & Hfail). split_and!; try done; congruence.
Qed.

Abbreviation plan' := (plan registry requested).
Abbreviation dep' := (dep registry).
Abbreviation closure' := (closure registry requested).


Lemma setup_names_elem (evs : list Event') name passed out :
  SetupCall name passed out ∈ evs → name ∈ setup_names evs.
Proof.
  intros Hin. apply list_elem_of_omap. by exists (SetupCall name passed out).
Qed.

Lemma failures_elem (evs : list Event') name passed e :
  SetupCall name passed (inl e) ∈ evs → (name, e) ∈ failures evs.
Proof.
  intros Hin. apply list_elem_of_omap. by exists (SetupCall name passed (inl e)).
Qed.

(** A call of [setup] whose planning returned [sorted]: the setup calls
    [ss] come first, then the rollback calls [cs]. *)
Lemma setup_planned (st : State') w sorted :
  plan' = Ok sorted →
  ∃ ss cs,
    events (setup' st w) = ss ++ cs ∧ cleanup_names ss = [] ∧ setup_names cs = [] ∧
    (∀ i name passed out, ss !! i = Some (SetupCall name passed out) →
       passed = values_of (take i ss) ∧
       ∃ k, sorted !! k = Some name ∧
            ∀ k' d, k' < k → sorted !! k' = Some d → is_Some (passed !! d)) ∧
    match outcome (setup' st w) with
    | Ok _ =>
        cs = [] ∧ setup_names ss = sorted ∧ succeeded ss = sorted ∧ failures ss = [] ∧
        deps (final (setup' st w)) = Some (values_of ss) ∧
        (cleanups (final (setup' st w))).*1 = sorted
    | Throw e =>
        ∃ k err post, sorted = succeeded ss ++ k :: post ∧
          setup_names ss = succeeded ss ++ [k] ∧ failures ss = [(k, err)] ∧
          cleanup_names cs = take (length cs) (reverse (succeeded ss)) ∧
          length cs ≤ length (succeeded ss) ∧
          world (setup' st w) =
            applied (take (length cs)
                       (reverse (cleanups (final (tried registry sorted st w))).*2))
                    (world (tried registry sorted st w)) ∧
          ss = events (tried registry sorted st w) ∧
          (cleanups (final (tried registry sorted st w))).*1 = succeeded ss ∧
          ((e = Raised err ∧ thrown cs = [] ∧ length cs = length (succeeded ss) ∧
            final (setup' st w) = mkState None []) ∨
           (∃ pre name e', e = Raised e' ∧ cs = pre ++ [CleanupThrow name e'] ∧
              thrown pre = [] ∧ deps (final (setup' st w)) = deps st ∧
              (cleanups (final (setup' st w))).*1 = succeeded ss))
    | OutOfFuel => False
    end.
Proof.
  intros Hplan. unfold setup, tried. rewrite Hplan.
  destruct (setup_each_run sorted ∅ (mkState (deps st) []) w [])
    as (ss & Hev & Hcl & Hdeps & Hcs & Hpassed & Hout); [|done|].
  { intros n Hn. apply plan_ok in Hplan as (_ & Hin & _ & Hno). by apply Hno, Hin. }
  cbv zeta in *. simpl in *.
  assert (Hp : ∀ i name passed out, ss !! i = Some (SetupCall name passed out) →
       passed = values_of (take i ss) ∧
       ∃ k, sorted !! k = Some name ∧
            ∀ k' d, k' < k → sorted !! k' = Some d → is_Some (passed !! d)).
  { intros i name passed out Hi.
    destruct (Hpassed i name passed out Hi) as (? & _ & ?); [lia|done]. }
  destruct (outcome (setup_each' sorted ∅ _ w [])) as [values|e|] eqn:Ho; simpl.
  - exists ss, []. rewrite app_nil_r. simpl.
    destruct Hout as (-> & Hs & Hs' & Hf). split_and!; try done.
    by rewrite Hcs, Hs'.
  - destruct Hout as (k & err & post & -> & Hsorted & Hs & Hf).
    destruct (cleanup_each_run
                (reverse (cleanups (final (setup_each' sorted ∅ (mkState (deps st) []) w []))))
                (world (setup_each' sorted ∅ (mkState (deps st) []) w []))
                (events (setup_each' sorted ∅ (mkState (deps st) []) w [])))
      as (cs & Hcev & Hcn & Hsn & Hlen & Hw & Hthrown).
    rewrite fmap_reverse, Hcs in Hcn.
    rewrite length_reverse, <-(length_fmap fst), Hcs in Hlen.
    rewrite fmap_reverse in Hw.
    destruct (cleanup_each _ _ _) as [[w' evs] [e|]] eqn:Hce; simpl in *.
    + exists ss, cs. rewrite Hcev, Hev. split_and!; try done.
      exists k, err, post. split_and!; try done.
      right. destruct Hthrown as (pre & name & -> & Hpre). by exists pre, name, e.
    + exists ss, cs. rewrite Hcev, Hev. split_and!; try done.
      exists k, err, post. rewrite length_reverse, <-(length_fmap fst), Hcs in Hthrown.
      split_and!; try done. left. by destruct Hthrown.
  - done.
Qed.

Lemma setup_unplanned (st : State') w :
  (∀ sorted, plan' ≠ Ok sorted) →
  ∃ e, plan' = Throw e ∧ setup' st w = mkRun st w [] (Throw e).
Proof.
  intros Hno. unfold setup. destruct plan' as [sorted|e|] eqn:Hplan.
  - by destruct (Hno sorted).
  - by exists e.
  - by apply plan_total in Hplan.
Qed.

(** A call of [teardown]: the calls made are a prefix of the reversed
    cleanups; the state is reset only when the loop ends. *)
Lemma teardown_run (st : State') w :
  let t := teardown st w in
  cleanup_names (events t) = take (length (events t)) (reverse (cleanups st).*1) ∧
  setup_names (events t) = [] ∧
  length (events t) ≤ length (cleanups st) ∧
  world t = applied (take (length (events t)) (reverse (cleanups st).*2)) w ∧
  match outcome t with
  | Ok _ =>
      length (events t) = length (cleanups st) ∧ thrown (events t) = [] ∧
      final t = mkState None []
  | Throw e =>
      ∃ pre name e', e = Raised e' ∧ events t = pre ++ [CleanupThrow name e'] ∧
        thrown pre = [] ∧ final t = mkState (deps st) (reverse (cleanups st))
  | OutOfFuel => False
  end.
Proof using Type.
  unfold teardown.
  destruct (cleanup_each_run (reverse (cleanups st)) w [])
    as (cs & Hev & Hcn & Hsn & Hl & Hw & Hout).
  rewrite !fmap_reverse in *. rewrite length_reverse in *.
  destruct (cleanup_each _ _ _) as [[w' evs] [e|]]; simpl in *; subst evs.
  - split_and!; try done. destruct Hout as (pre & name & -> & Hpre).
    by exists pre, name, e.
  - by destruct Hout.
Qed.

Lemma plan_ok_acyclic order n : plan' = Ok order → closure' n → ¬ tc dep' n n.
Proof.
  intros (Hnd & Hin & Htopo & _)%plan_ok Hn.
  apply (topological_acyclic _ order); [done..|]. by apply Hin.
Qed.

Lemma plan_circular_registered c n :
  plan' = Throw (CircularDependency c) → closure' n → ¬ missing registry n.
Proof.
  intros [(_ & m & [[[=] _]|[[=] _]] & _)|(c' & _ & _ & _ & Hno)]%plan_throw.
  by apply Hno.
Qed.

Lemma outcome_ok_planned (st : State') w :
  outcome (setup' st w) = Ok tt → ∃ sorted, plan' = Ok sorted.
Proof.
  intros Hok. destruct plan' as [sorted|e|] eqn:Hplan; [by exists sorted|..].
  - destruct (setup_unplanned st w) as (e' & _ & Hrun); [by rewrite Hplan|].
    by rewrite Hrun in Hok.
  - by apply plan_total in Hplan.
Qed.

Lemma count_absent (l : list string) x : x ∉ l → filter (λ n, n = x) l = [].
Proof.
  induction l as [|y l IH]; [done|]. intros Hx.
  rewrite filter_cons_False by set_solver. apply IH. set_solver.
Qed.

Lemma count_NoDup (l : list string) x :
  NoDup l →
  length (filter (λ n, n = x) l) ≤ 1 ∧ (x ∈ l → length (filter (λ n, n = x) l) = 1).
Proof.
  induction 1 as [|y l Hy Hnd [IH1 IH2]]; simpl.
  - split; [lia|]. by intros ?%elem_of_nil.
  - rewrite filter_cons. destruct (decide (y = x)) as [->|Hne]; simpl.
    + rewrite (count_absent l x Hy). simpl. split; [lia|done].
    + split; [done|]. intros [?|?]%elem_of_cons; [congruence|auto].
Qed.

(** ** The claims *)

Lemma setup_names_app (l1 l2 : list Event') :
  setup_names (l1 ++ l2) = setup_names l1 ++ setup_names l2.
Proof. apply omap_app. Qed.

Lemma failures_app (l1 l2 : list Event') :
  failures (l1 ++ l2) = failures l1 ++ failures l2.
Proof. apply omap_app. Qed.


(** C5 (deduplication), as the code has it.  A fixture that two different
    fixtures of the closure depend on has its setup operation invoked at
    most once in a pass, and exactly once in a pass that returns. *)
Theorem shared_dependency_once s a b (st : State') w :
  a ≠ b → closure' a → closure' b → dep' a s → dep' b s →
  calls s (events (setup' st w)) ≤ 1 ∧
  (outcome (setup' st w) = Ok tt → calls s (events (setup' st w)) = 1).
Proof.
  intros _ Ha _ Has _. unfold calls.
  destruct plan' as [sorted|e|] eqn:Hplan; cycle 1.
  - destruct (setup_unplanned st w) as (e' & _ & ->); [by rewrite Hplan|].
    simpl. split; [lia|done].
  - by apply plan_total in Hplan.
  - destruct (plan_ok _ _ sorted Hplan) as (Hnd & Hin & _).
    destruct (setup_planned st w sorted Hplan) as (ss & cs & Hev & _ & Hsn & _ & Hout).
    rewrite Hev, setup_names_app, Hsn, app_nil_r.
    destruct (outcome (setup' st w)) as [[]|e|]; [| |done].
    + destruct Hout as (_ & -> & _).
      destruct (count_NoDup sorted s Hnd) as [Hle Heq]. split; [done|].
      intros _. apply Heq, Hin. by apply closure_step with a.
    + destruct Hout as (k & err & post & Hsorted & -> & _). split; [|done].
      apply count_NoDup. rewrite Hsorted, (cons_middle k), app_assoc in Hnd.
      by apply NoDup_app in Hnd as (? & _).
Qed.

(** C6 (cycle detection), as the code has it.  When no name of the closure
    is missing from the registry and a cycle is reachable from the
    requested names, [setup] fails with the circular-dependency error of
    a name that lies on a cycle of the closure; no operation is invoked
    and nothing changes. *)
Theorem setup_cycle c (st : State') w :
  (∀ n, closure' n → ¬ missing registry n) →
  closure' c → tc dep' c c →
  ∃ c', setup' st w = mkRun st w [] (Throw (CircularDependency c')) ∧
        tc dep' c' c' ∧ closure' c'.
Proof.
  intros Hmiss Hc Hcyc.
  destruct (plan_cyclic _ _ c Hmiss Hc Hcyc) as (c' & Hplan & Hc' & Hcl).
  exists c'. split; [|done]. unfold setup. by rewrite Hplan.
Qed.

(** C7 (missing fixture), as the code has it.  When some requested or
    transitively declared name has no entry in the registry, and none of
    the names without an entry is the name of a property that plain
    objects inherit, graph building fails with the fixture-not-found
    error of one such name (of that very name when it is the only one
    missing), so [setup] fails with that error; no operation is invoked
    and nothing changes. *)
Theorem setup_missing n (st : State') w :
  closure registry requested n → missing registry n →
  (∀ m, closure registry requested m → missing registry m → m ∉ Object_prototype) →
  ∃ m, buildGraph registry requested = Throw (FixtureNotFound m) ∧
       setup registry requested st w = mkRun st w [] (Throw (FixtureNotFound m)) ∧
       closure registry requested m ∧ missing registry m ∧
       ((∀ m', closure registry requested m' → missing registry m' → m' = n) → m = n).
Proof.
  intros Hn Hmiss Hown.
  destruct (plan_missing _ _ n Hn Hmiss) as (e & m & Hplan & Hg & He & Hm & Hcl).
  destruct He as [[-> _]|[_ Hin]]; [|by destruct (Hown m)].
  exists m. split_and!; [done|unfold setup; by rewrite Hplan|done..|by auto].
Qed.



End lifecycle.

(** C10 (empty request).  With no requested name [setup] returns without
    invoking anything, and [get] then returns the empty record instead of
    failing. *)
Theorem empty_request {Value Err W : Type}
    (registry : gmap string (Fixture.t Value Err W)) (st : State Value Err W) (w : W) :
  setup registry [] st w = mkRun (mkState (Some ∅) []) w [] (Ok tt) ∧
  get [] (final (setup registry [] st w)) (world (setup registry [] st w))
    = mkRun (mkState (Some ∅) []) w [] (Ok ∅).
Proof. done. Qed.

(** * The scenarios of the test suite, checked *)

(** ** Scenarios of the specification *)

Example scenario_chain :
  let r := setup chain_registry ["d"] start [] in
  world r = ["setup a"; "setup b"; "setup c"; "setup d"] ∧
  outcome (get ["d"] (final r) (world r)) = Ok {[ "d" := Some "d-c-b-a" ]}.
Proof. by vm_compute. Qed.

Example scenario_diamond :
  let r := setup shared_registry ["foo"; "bar"] start [] in
  world (teardown (final r) (world r)) =
    ["setup shared"; "setup foo"; "setup bar";
     "cleanup bar"; "cleanup foo"; "cleanup shared"] ∧
  outcome (get ["foo"; "bar"] (final r) (world r)) =
    Ok {[ "foo" := Some "foo-shared-value"; "bar" := Some "bar-shared-value" ]}.
Proof. by vm_compute. Qed.

Example scenario_circular :
  setup circular_registry ["a"] start [] =
    mkRun start [] [] (Throw (CircularDependency "a")) ∧
  message id (CircularDependency "a") = "Circular dependency detected: a".
Proof. by vm_compute. Qed.

Example scenario_before_setup :
  outcome (get ["foo"] start ([] : list string)) = Throw NotInitialized.
Proof. done. Qed.

(** ** Cleanups that fail *)

(** C1.  The test [should throw if cleanup fails]: the cleanup of [b]
    rejects with ["cleanup failed"]; [teardown] still invokes the three
    cleanups, in reverse order, and then returns instead of throwing. *)
Theorem teardown_swallows_cleanup_error :
  let r := setup cleanup_fails_registry ["c"] start [] in
  outcome r = Ok tt ∧
  events (teardown (final r) (world r)) =
    [CleanupCall "c" None; CleanupCall "b" (Some "cleanup failed");
     CleanupCall "a" None] ∧
  outcome (teardown (final r) (world r)) = Ok tt.
Proof. by vm_compute. Qed.

(** C2.  The setup of [c] throws ["setup failed"] and the cleanup of [b]
    throws ["boom"] before it returns a promise: the rollback stops at
    [b], the cleanup of [a] is never invoked, the cleanups stay pending,
    and the caller gets ["boom"] instead of the setup error. *)
Theorem rollback_stops_at_throwing_cleanup :
  let r := setup rollback_throws_registry ["c"] start [] in
  plan rollback_throws_registry ["c"] = Ok ["a"; "b"; "c"] ∧
  setup_names (events r) = ["a"; "b"; "c"] ∧
  failures (events r) = [("c", "setup failed")] ∧
  drop 3 (events r) = [CleanupThrow "b" "boom"] ∧
  world r = ["setup a"; "setup b"; "setup c"; "cleanup b"] ∧
  (cleanups (final r)).*1 = ["a"; "b"] ∧
  outcome r = Throw (Raised "boom").
Proof. by vm_compute. Qed.

(** C4.  After a [setup] that returned, the cleanup of [b] throws
    ["boom"] before it returns a promise: [teardown] stops at [b], the
    cleanup of [a] is never invoked, the resolved values stay and the
    cleanups stay pending, in reversed order. *)
Theorem teardown_stops_at_throwing_cleanup :
  let r := setup cleanup_throws_registry ["c"] start [] in
  let t := teardown (final r) (world r) in
  outcome r = Ok tt ∧ (cleanups (final r)).*1 = ["a"; "b"; "c"] ∧
  events t = [CleanupCall "c" None; CleanupThrow "b" "boom"] ∧
  world t = world r ++ ["cleanup c"; "cleanup b"] ∧
  outcome t = Throw (Raised "boom") ∧
  deps (final t) = deps (final r) ∧ deps (final r) ≠ None ∧
  (cleanups (final t)).*1 = ["c"; "b"; "a"].
Proof. by vm_compute. Qed.

(** C8.  After that [teardown], [get] still returns the value of [c]
    instead of failing with the not-initialized error. *)
Theorem get_after_stopped_teardown :
  let r := setup cleanup_throws_registry ["c"] start [] in
  let t := teardown (final r) (world r) in
  outcome t = Throw (Raised "boom") ∧
  outcome (get ["c"] (final t) (world t)) = Ok {[ "c" := Some "c" ]}.
Proof. by vm_compute. Qed.

(** C9.  A second [teardown] in a row then reverses the pending cleanups
    once more, invokes the cleanup of [a] and that of [b] again, and
    fails again. *)
Theorem teardown_again_after_stopped_teardown :
  let r := setup cleanup_throws_registry ["c"] start [] in
  let t := teardown (final r) (world r) in
  let t' := teardown (final t) (world t) in
  outcome t = Throw (Raised "boom") ∧
  events t' = [CleanupCall "a" None; CleanupThrow "b" "boom"] ∧
  world t' = world t ++ ["cleanup a"; "cleanup b"] ∧
  outcome t' = Throw (Raised "boom") ∧
  (cleanups (final t')).*1 = ["a"; "b"; "c"].
Proof. by vm_compute. Qed.

(** ** Instances *)



Lemma shared_dependency_once_witness :
  calls "shared" (events (setup shared_registry ["foo"; "bar"] start [])) ≤ 1 ∧
  (outcome (setup shared_registry ["foo"; "bar"] start []) = Ok tt →
   calls "shared" (events (setup shared_registry ["foo"; "bar"] start [])) = 1).
Proof.
  apply (shared_dependency_once shared_registry ["foo"; "bar"] "shared" "foo" "bar").
  - done.
  - solve_requested.
  - solve_requested.
  - solve_dep.
  - solve_dep.
Defined.

Lemma circular_plan : plan circular_registry ["a"] = Throw (CircularDependency "a").
Proof. by vm_compute. Qed.

Lemma setup_cycle_witness :
  ∃ c', setup circular_registry ["a"] start [] =
          mkRun start [] [] (Throw (CircularDependency c')) ∧
        tc (dep circular_registry) c' c' ∧ closure circular_registry ["a"] c'.
Proof.
  apply (setup_cycle circular_registry ["a"] "a").
  - intros n. by apply (plan_circular_registered _ _ _ n circular_plan).
  - solve_requested.
  - apply tc_l with "b"; [solve_dep|]. apply tc_once. solve_dep.
Defined.

Lemma one_missing_closure m :
  closure one_missing_registry ["a"] m → missing one_missing_registry m → m = "zz".
Proof.
  intros (r & ->%list_elem_of_singleton & Hp) Hm.
  apply rtc_inv in Hp as [<-|(y & (fixture & Hf & Hy) & Hp)]; [done|].
  injection Hf as <-. apply list_elem_of_singleton in Hy as ->.
  by apply rtc_inv in Hp as [<-|(y & (fixture & [=] & _) & _)].
Qed.

Lemma setup_missing_witness :
  (∃ m, buildGraph one_missing_registry ["a"] = Throw (FixtureNotFound m) ∧
        setup one_missing_registry ["a"] start [] =
          mkRun start [] [] (Throw (FixtureNotFound m)) ∧
        closure one_missing_registry ["a"] m ∧ missing one_missing_registry m ∧
        ((∀ m', closure one_missing_registry ["a"] m' →
                missing one_missing_registry m' → m' = "zz") → m = "zz")) ∧
  setup one_missing_registry ["a"] start [] =
    mkRun start [] [] (Throw (FixtureNotFound "zz")).
Proof.
  assert (Hthm := setup_missing one_missing_registry ["a"] "zz" start []).
  destruct Hthm as (m & Hg & Hrun & Hc & Hm & Huniq).
  - exists "a". split; [set_solver|]. apply rtc_once. solve_dep.
  - done.
  - intros m Hc Hm. rewrite (one_missing_closure m Hc Hm).
    apply (bool_decide_unpack _). by vm_compute.
  - split; [by exists m|]. rewrite Hrun, Huniq; [done|]. apply one_missing_closure.
Defined.

(** ** Inputs on which the specification's wording fails *)



(** C5 as worded: [x] throws first, so the shared dependency of [foo] and
    [bar] is not set up at all. *)
Lemma shared_dependency_counterexample :
  ¬ ("foo" ≠ "bar" →
     closure shared_after_failure_registry ["x"; "foo"; "bar"] "foo" →
     closure shared_after_failure_registry ["x"; "foo"; "bar"] "bar" →
     dep shared_after_failure_registry "foo" "shared" →
     dep shared_after_failure_registry "bar" "shared" →
     calls "shared"
       (events (setup shared_after_failure_registry ["x"; "foo"; "bar"] start [])) = 1).
Proof.
  intros Hclaim.
  assert (Hs : calls "shared"
      (events (setup shared_after_failure_registry ["x"; "foo"; "bar"] start [])) = 1).
  { apply Hclaim; [done|solve_requested|solve_requested|solve_dep|solve_dep]. }
  vm_compute in Hs. discriminate.
Qed.

(** C6 as worded: [a] and [b] form a cycle, but [a] also names [zz], which
    is not registered, and that is what [setup] reports. *)
Lemma setup_cycle_counterexample :
  ¬ (closure cycle_and_missing_registry ["a"] "a" →
     tc (dep cycle_and_missing_registry) "a" "a" →
     ∃ c, outcome (setup cycle_and_missing_registry ["a"] start []) =
            Throw (CircularDependency c)).
Proof.
  intros Hclaim. destruct Hclaim as [c Hc].
  - solve_requested.
  - apply tc_l with "b"; [solve_dep|]. apply tc_once. solve_dep.
  - vm_compute in Hc. discriminate.
Qed.

(** C7 as worded: [x] and [y] are both missing, and the error names [x]
    only. *)
Lemma setup_missing_counterexample :
  ¬ (closure (∅ : gmap string TestFixture) ["x"; "y"] "y" →
     missing (∅ : gmap string TestFixture) "y" →
     outcome (setup (∅ : gmap string TestFixture) ["x"; "y"] start []) =
       Throw (FixtureNotFound "y")).
Proof.
  intros Hclaim.
  assert (Hy : outcome (setup (∅ : gmap string TestFixture) ["x"; "y"] start []) =
                 Throw (FixtureNotFound "y")).
  { apply Hclaim; [solve_requested|done]. }
  vm_compute in Hy. discriminate.
Qed.

(** * Further properties of the sorter *)

Section sorter_more.
Context {T : Type} `{Countable T} {Err : Type}.
Variable dependencies : gmap T (list T).

Abbreviation edge' := (edge dependencies).
Abbreviation visit' := (visit (Err := Err) dependencies).
Abbreviation sortFixtures' := (sortFixtures (Err := Err) dependencies).
Abbreviation reached' := (reached dependencies).

(** X1.  An order returned by [sortFixtures] has no duplicates, holds the
    given fixtures and exactly the names reached from them along the
    edges of the map (a name without an entry is a leaf), is closed under
    dependencies, and lists every dependency before its dependent. *)
Theorem sorter_order fixtures order :
  sortFixtures' fixtures = Ok order →
  NoDup order ∧
  (∀ x, x ∈ fixtures → x ∈ order) ∧
  (∀ x, x ∈ order ↔ reached' fixtures x) ∧
  (∀ x d, x ∈ order → edge' x d → d ∈ order) ∧
  topological edge' order.
Proof.
  intros (Hnd & Hin & Htopo)%sortFixtures_ok. split_and!; [done| |done| |done].
  - intros x Hx. apply Hin. by exists x.
  - intros x d [i Hi]%list_elem_of_lookup Hd.
    destruct (Htopo i x d Hi Hd) as (j & _ & Hj). by apply list_elem_of_lookup_2 in Hj.
Qed.

(** X2.  [sortFixtures] always ends, in one of two ways: it returns, and
    then no name reached from the fixtures lies on a cycle; or it throws
    the circular-dependency error of a reached name that lies on a cycle. *)
Theorem sorter_outcome fixtures :
  match sortFixtures (Err := Err) dependencies fixtures with
  | Ok order =>
      ∀ c, reached dependencies fixtures c → ¬ tc (edge dependencies) c c
  | Throw e =>
      ∃ c, e = CircularDependency c ∧ reached dependencies fixtures c ∧
           tc (edge dependencies) c c
  | OutOfFuel => False
  end.
Proof.
  destruct (sortFixtures' fixtures) as [order|e|] eqn:Hrun.
  - apply sortFixtures_ok in Hrun as (Hnd & Hin & Htopo).
    intros c Hc. apply (topological_acyclic _ order); [done..|]. by apply Hin.
  - apply sortFixtures_throw in Hrun as (c & -> & Hc & Hr). by exists c.
  - by apply sortFixtures_total in Hrun.
Qed.

Lemma for_each_visited fuel deps (s : SortState T) :
  (∀ d, d ∈ deps → d ∈ visited s) → for_each (visit' fuel) deps s = Ok s.
Proof.
  induction deps as [|d deps IH]; intros Hall; [done|]. simpl.
  rewrite visit_unfold, decide_True by set_solver. simpl. apply IH. set_solver.
Qed.

Lemma visit_ready fuel name (s : SortState T) :
  name ∉ visited s → visiting s = ∅ →
  (∀ d, edge' name d → d ∈ visited s) →
  (is_Some (dependencies !! name) → 0 < fuel) →
  visit' fuel name s =
    Ok (mkSort (sorted s ++ [name]) ({[name]} ∪ visited s) ∅).
Proof.
  intros Hv Hg Hdeps Hfuel. rewrite visit_unfold.
  rewrite decide_False by done. rewrite decide_False by (rewrite Hg; set_solver).
  unfold visit_deps. destruct (dependencies !! name) as [deps|] eqn:E; simpl.
  - destruct fuel as [|fuel].
    { assert (0 < 0) by (apply Hfuel; by eexists). lia. }
    rewrite for_each_visited; simpl.
    + unfold leave. simpl. do 2 f_equal. rewrite Hg. set_solver.
    + intros d Hd. apply Hdeps. by exists deps.
  - unfold leave. simpl. do 2 f_equal. rewrite Hg. set_solver.
Qed.

Lemma for_each_sorted_input l : ∀ pre (s : SortState T),
  sorted s = pre → visited s = list_to_set pre → visiting s = ∅ →
  NoDup (pre ++ l) → topological edge' (pre ++ l) →
  ∃ s', for_each (visit' (size dependencies)) l s = Ok s' ∧ sorted s' = pre ++ l.
Proof.
  induction l as [|x l IH]; intros pre s Hs Hv Hg Hnd Htopo; simpl.
  - exists s. by rewrite app_nil_r.
  - rewrite (visit_ready _ x s).
    + simpl. rewrite (cons_middle x), app_assoc in Hnd, Htopo.
      replace (pre ++ x :: l) with ((pre ++ [x]) ++ l) by (by rewrite <-app_assoc).
      apply IH; simpl; [by rewrite Hs| |done..].
      rewrite Hv, list_to_set_app_L. set_solver.
    + rewrite Hv. apply NoDup_app in Hnd as (_ & Hnd & _).
      intros Hx%elem_of_list_to_set. apply (Hnd x Hx). set_solver.
    + done.
    + intros d Hd. destruct (Htopo (length pre) x d) as (j & Hj & Hjd); [|done|].
      { by rewrite lookup_app_r, Nat.sub_diag. }
      rewrite lookup_app_l in Hjd by done.
      rewrite Hv. apply elem_of_list_to_set. by apply list_elem_of_lookup_2 in Hjd.
    + intros [deps Hdeps]. destruct (size dependencies) eqn:Hsize; [|lia].
      apply map_size_empty_iff in Hsize. by rewrite Hsize, lookup_empty in Hdeps.
Qed.

(** X3.  A duplicate-free list that is already in dependency order comes
    back unchanged; in particular fixtures without dependencies keep the
    order in which they are given. *)
Theorem sorter_keeps_sorted_input fixtures :
  NoDup fixtures → topological edge' fixtures →
  sortFixtures' fixtures = Ok fixtures.
Proof.
  intros Hnd Htopo. unfold sortFixtures.
  destruct (for_each_sorted_input fixtures [] (mkSort [] ∅ ∅)) as (s' & -> & Hs); try done.
  simpl. by rewrite Hs.
Qed.

(** X4.  Sorting is idempotent: sorting an order that [sortFixtures]
    returned gives that order back. *)
Theorem sorter_idempotent fixtures order :
  sortFixtures (Err := Err) dependencies fixtures = Ok order →
  sortFixtures (Err := Err) dependencies order = Ok order.
Proof.
  intros (Hnd & _ & Htopo)%sortFixtures_ok. unfold sortFixtures.
  destruct (for_each_sorted_input order [] (mkSort [] ∅ ∅)) as (s' & -> & Hs); try done.
  simpl. by rewrite Hs.
Qed.

End sorter_more.

(** * Further properties of the graph builder *)

Lemma Set_from_NoDup l : NoDup l → Set_from l = l.
Proof.
  unfold Set_from.
  assert (Hgen : ∀ acc, NoDup (acc ++ l) →
    foldl (λ acc x, Set_add x acc) acc l = acc ++ l).
  { induction l as [|x l IH]; intros acc Hnd; simpl.
    - by rewrite app_nil_r.
    - rewrite (cons_middle x), app_assoc in Hnd |- *.
      unfold Set_add at 2. rewrite decide_False; [by apply IH|].
      apply NoDup_app in Hnd as (Hnd & _). apply NoDup_app in Hnd as (_ & Hnd & _).
      intros Hx. apply (Hnd x Hx). set_solver. }
  intros Hnd. by apply (Hgen []).
Qed.

Section builder_more.
Context {Value Err W : Type}.
Variable registry : gmap string (Fixture.t Value Err W).
Variable requested : list string.

Abbreviation dep' := (dep registry).
Abbreviation closure' := (closure registry requested).
Abbreviation buildGraph' := (buildGraph registry requested).
Abbreviation plan' := (plan registry requested).

Lemma loadDeps_appends fuel n g g' :
  loadDeps registry fuel n g = Ok g' → ∃ extra, toLoad g' = toLoad g ++ extra.
Proof.
  revert n g g'. induction fuel as [|fuel IH]; intros n g g';
    rewrite loadDeps_unfold; intros Hrun.
  all: destruct (decide (is_Some (dependencies g !! n))) as [Hin|Hin];
    [injection Hrun as <-; exists []; by rewrite app_nil_r|].
  all: rewrite declared_spec in Hrun.
  all: destruct (registry !! n) as [fixture|] eqn:Hn; [|by case_decide].
  all: simpl in Hrun; try done.
  apply (for_each_chain _ (λ _ g g', ∃ extra, toLoad g' = toLoad g ++ extra)) in Hrun;
    [exact Hrun|..].
  - intros g0. exists []. by rewrite app_nil_r.
  - intros x l g0 g1 g2 [e1 H1] [e2 H2]. exists (e1 ++ e2).
    by rewrite H2, H1, app_assoc.
  - intros x g0 g0' [extra Hx]%IH. simpl in Hx. unfold Set_add in Hx.
    destruct (decide (x ∈ toLoad g0)); [by exists extra|].
    exists ([x] ++ extra). by rewrite Hx, app_assoc.
Qed.

Lemma buildGraph_appends g :
  buildGraph' = Ok g → ∃ extra, toLoad g = Set_from requested ++ extra.
Proof.
  unfold buildGraph.
  apply (for_each_chain _ (λ _ g g', ∃ extra, toLoad g' = toLoad g ++ extra)).
  - intros g0. exists []. by rewrite app_nil_r.
  - intros x l g0 g1 g2 [e1 H1] [e2 H2]. exists (e1 ++ e2).
    by rewrite H2, H1, app_assoc.
  - intros x g0 g0'. apply loadDeps_appends.
Qed.

(** X5.  A graph that graph building returns records exactly the names
    of the closure, each with the dependency list its fixture declares;
    the queue of names to sort has no duplicates, holds exactly the
    closure and starts with the requested names in the order of the
    request (first occurrences). *)
Theorem graph_closure g :
  buildGraph' = Ok g →
  (∀ n ds, dependencies g !! n = Some ds ↔
     closure' n ∧ ∃ fixture, registry !! n = Some fixture ∧
                              Fixture.dependencies fixture = ds) ∧
  NoDup (toLoad g) ∧
  (∀ n, n ∈ toLoad g ↔ closure' n) ∧
  Set_from requested `prefix_of` toLoad g.
Proof.
  intros Hg. destruct (buildGraph_ok _ _ g Hg) as (Hm & Hnd & Hdom & Hq).
  split_and!; [|done..|by apply buildGraph_appends].
  intros n ds. split.
  - intros Hn. split; [apply Hdom; by apply elem_of_dom_2 in Hn|]. by apply Hm.
  - intros [Hn (fixture & Hf & <-)]. apply Hdom, elem_of_dom in Hn as [ds Hds].
    destruct (Hm n ds Hds) as (fixture' & Hf' & <-). congruence.
Qed.

Lemma closed_request_closure :
  (∀ i x, requested !! i = Some x →
     ∃ fixture, registry !! x = Some fixture ∧
       ∀ d, d ∈ Fixture.dependencies fixture → ∃ j, j < i ∧ requested !! j = Some d) →
  ∀ n, closure' n → n ∈ requested.
Proof.
  intros Hclosed n (r & Hr & Hp). induction Hp as [r|r y z Hry Hyz IH]; [done|].
  apply IH. apply list_elem_of_lookup in Hr as [i Hi].
  destruct (Hclosed i r Hi) as (fixture & Hf & Hdeps).
  destruct Hry as (fixture' & Hf' & Hy). rewrite Hf in Hf'. injection Hf' as <-.
  destruct (Hdeps y Hy) as (j & _ & Hj). by apply list_elem_of_lookup_2 in Hj.
Qed.

Lemma closed_request_plan :
  NoDup requested →
  (∀ i x, requested !! i = Some x →
     ∃ fixture, registry !! x = Some fixture ∧
       ∀ d, d ∈ Fixture.dependencies fixture → ∃ j, j < i ∧ requested !! j = Some d) →
  plan' = Ok requested.
Proof.
  intros Hnd Hclosed. pose proof (closed_request_closure Hclosed) as Hcl.
  unfold plan. destruct buildGraph' as [g|e|] eqn:Hg; simpl.
  - destruct (buildGraph_ok _ _ g Hg) as (_ & Hndq & _ & Hq).
    destruct (buildGraph_appends g Hg) as [extra Hextra].
    rewrite (Set_from_NoDup _ Hnd) in Hextra.
    assert (extra = []) as ->.
    { destruct extra as [|x extra]; [done|]. exfalso.
      rewrite Hextra in Hndq. apply NoDup_app in Hndq as (_ & Hdis & _).
      apply (Hdis x); [|set_solver]. apply Hcl, Hq. rewrite Hextra. set_solver. }
    rewrite app_nil_r in Hextra. rewrite Hextra. unfold sortFixtures.
    destruct (for_each_sorted_input (Err := Err) (dependencies g) requested []
                (mkSort [] ∅ ∅)) as (s' & -> & Hs); try done.
    + intros i x d Hi Hd. apply (buildGraph_edge registry requested g) in Hd as [_ Hd]; [|done].
      destruct (Hclosed i x Hi) as (fixture & Hf & Hdeps).
      destruct Hd as (fixture' & Hf' & Hd). rewrite Hf in Hf'. injection Hf' as <-.
      by apply Hdeps.
    + simpl. by rewrite Hs.
  - apply buildGraph_missing in Hg as (m & _ & Hm & Hc). exfalso.
    apply Hcl, list_elem_of_lookup in Hc as [i Hi].
    destruct (Hclosed i m Hi) as (fixture & Hf & _). unfold missing in Hm. congruence.
  - by apply buildGraph_total in Hg.
Qed.

(** X6.  When the request has no duplicates and lists, before each
    fixture, all the dependencies that fixture declares, the setup
    operations are invoked in the order of the request: all of them in a
    pass that returns, a prefix of them otherwise.  Fixtures without
    dependencies are thus set up in the order requested. *)
Theorem setup_follows_request (st : State Value Err W) w :
  NoDup requested →
  (∀ i x, requested !! i = Some x →
     ∃ fixture, registry !! x = Some fixture ∧
       ∀ d, d ∈ Fixture.dependencies fixture → ∃ j, j < i ∧ requested !! j = Some d) →
  plan' = Ok requested ∧
  setup_names (events (setup registry requested st w)) `prefix_of` requested ∧
  (outcome (setup registry requested st w) = Ok tt →
   setup_names (events (setup registry requested st w)) = requested).
Proof.
  intros Hnd Hclosed. pose proof (closed_request_plan Hnd Hclosed) as Hplan.
  split; [done|].
  destruct (setup_planned _ _ st w requested Hplan) as (ss & cs & Hev & _ & Hsn & _ & Hout).
  unfold setup_names in *. rewrite Hev, omap_app, Hsn, app_nil_r.
  destruct (outcome (setup registry requested st w)) as [[]|e|]; [| |done].
  - destruct Hout as (_ & -> & _). done.
  - destruct Hout as (k & err & post & Hreq & -> & _). split; [|done].
    exists post. by rewrite <-app_assoc.
Qed.

End builder_more.

(** * Further properties of the lifecycle *)

Section lifecycle_more.
Context {Value Err W : Type}.
Variable registry : gmap string (Fixture.t Value Err W).
Variable requested : list string.

Abbreviation Event' := (Event Value Err).
Abbreviation State' := (State Value Err W).
Abbreviation setup' := (setup registry requested).
Abbreviation get' := (get (Value := Value) (Err := Err) (W := W) requested).
Abbreviation plan' := (plan registry requested).
Abbreviation dep' := (dep registry).
Abbreviation closure' := (closure registry requested).

Lemma failures_inv (evs : list Event') k e :
  (k, e) ∈ failures evs → ∃ p, SetupCall k p (inl e) ∈ evs.
Proof.
  intros ([n p [e'|v]|n r|n e'] & Hin & [=])%list_elem_of_omap; subst. by exists p.
Qed.

Lemma cleanup_names_elem (evs : list Event') n r :
  CleanupCall n r ∈ evs → n ∈ cleanup_names evs.
Proof using Type. intros Hin. apply list_elem_of_omap. by exists (CleanupCall n r). Qed.

Lemma cleanup_names_elem_thrown (evs : list Event') n e :
  CleanupThrow n e ∈ evs → n ∈ cleanup_names evs.
Proof using Type. intros Hin. apply list_elem_of_omap. by exists (CleanupThrow n e). Qed.

Lemma thrown_app (l1 l2 : list Event') : thrown (l1 ++ l2) = thrown l1 ++ thrown l2.
Proof using Type. apply omap_app. Qed.




(** X7.  Every way a call of [setup] can end.  It returns only when no
    name of the closure is missing, the closure has no cycle, no setup
    operation raised and no cleanup was invoked.  Graph building fails
    for a missing name of the closure: with fixture-not-found naming it,
    or, when the name is that of a property plain objects inherit, with
    the error of spreading what is no list; sorting fails with
    circular-dependency for a name on a cycle of the closure, none of
    whose names is then missing; in these cases nothing was invoked and
    nothing changed.  Any other error comes from an invoked operation
    after a setup operation raised: either it is that operation's error,
    every rollback cleanup returned a promise and the state is cleared;
    or it is the error a rollback cleanup threw, and the resolved values
    are those the call started with.  [setup] never throws
    not-initialized and never loops. *)
Theorem setup_outcomes (st : State') w :
  match outcome (setup' st w) with
  | Ok _ =>
      (∀ n, closure' n → ¬ missing registry n) ∧
      (∀ n, closure' n → ¬ tc dep' n n) ∧
      failures (events (setup' st w)) = [] ∧
      cleanup_names (events (setup' st w)) = []
  | Throw (FixtureNotFound m) =>
      closure' m ∧ missing registry m ∧ (m ∉ Object_prototype) ∧
      setup' st w = mkRun st w [] (Throw (FixtureNotFound m))
  | Throw NotIterable =>
      (∃ m, closure' m ∧ missing registry m ∧ m ∈ Object_prototype) ∧
      setup' st w = mkRun st w [] (Throw NotIterable)
  | Throw (CircularDependency c) =>
      closure' c ∧ tc dep' c c ∧ (∀ n, closure' n → ¬ missing registry n) ∧
      setup' st w = mkRun st w [] (Throw (CircularDependency c))
  | Throw (Raised e) =>
      failures (events (setup' st w)) ≠ [] ∧
      (((∃ name, failures (events (setup' st w)) = [(name, e)]) ∧
        thrown (events (setup' st w)) = [] ∧
        final (setup' st w) = mkState None []) ∨
       ((∃ name, thrown (events (setup' st w)) = [(name, e)] ∧
                 name ∈ succeeded (events (setup' st w))) ∧
        deps (final (setup' st w)) = deps st))
  | Throw NotInitialized | Throw NotCallable => False
  | OutOfFuel => False
  end.
Proof.
  destruct plan' as [sorted|e|] eqn:Hplan.
  - destruct (setup_planned registry requested st w sorted Hplan)
      as (ss & cs & Hev & Hcn & Hsn & _ & Hout).
    assert (Hf : failures (events (setup' st w)) = failures ss).
    { rewrite Hev, (failures_app registry).
      destruct (failures cs) as [|[n e'] l] eqn:Hfc; [by rewrite app_nil_r|].
      destruct (failures_inv cs n e') as [q Hq]; [rewrite Hfc; set_solver|].
      apply (setup_names_elem registry) in Hq. rewrite Hsn in Hq.
      by apply elem_of_nil in Hq. }
    assert (Ht : thrown (events (setup' st w)) = thrown cs).
    { by rewrite Hev, thrown_app, (thrown_nil ss Hcn). }
    rewrite Hf, Ht.
    destruct (outcome (setup' st w)) as [[]|e|]; [| |done].
    + destruct Hout as (-> & _ & _ & Hfs & _). rewrite app_nil_r in Hev.
      split_and!.
      * intros n. by apply (plan_ok _ _ sorted Hplan).
      * intros n. by apply (plan_ok_acyclic _ _ sorted n Hplan).
      * done.
      * by rewrite Hev.
    + destruct Hout as (k & err & post & _ & _ & Hfs & Hcs & _ & _ & _ & _ & [Hdone|Hstop]).
      * destruct Hdone as (-> & Hthrown & _ & Hfinal). rewrite Hfs.
        split; [done|]. left. split_and!; [by exists k|done..].
      * destruct Hstop as (pre & name & e' & -> & -> & Hpre & Hdeps & Hcl).
        rewrite Hfs. split; [done|]. right. split; [|done].
        rewrite thrown_app, Hpre. simpl. exists name. split; [done|].
        rewrite Hev. unfold succeeded. rewrite omap_app. apply elem_of_app. left.
        fold (succeeded ss).
        assert (Hin : name ∈ cleanup_names (pre ++ [CleanupThrow name e'])).
        { apply cleanup_names_elem_thrown with e'. set_solver. }
        rewrite Hcs in Hin. apply elem_of_take in Hin as (i & Hi & _).
        apply list_elem_of_lookup_2 in Hi. by rewrite elem_of_reverse in Hi.
  - destruct (setup_unplanned registry requested st w) as (e' & He' & Hrun); [by rewrite Hplan|].
    rewrite Hplan in He'. injection He' as <-. rewrite Hrun. simpl.
    apply plan_throw in Hplan
      as [(_ & m & [[-> Hm']|[-> Hm']] & Hm & Hc)|(c & -> & Hc & Hcl & Hno)];
      [done|split; [by exists m|done]|done].
  - by apply plan_total in Hplan.
Qed.

(** X8.  In one call of [setup] no fixture has its setup operation
    invoked twice and no fixture has its cleanup invoked twice, whatever
    the request (duplicates, shared dependencies) and however the call
    ends. *)
Theorem setup_at_most_once (st : State') w name :
  calls name (events (setup' st w)) ≤ 1 ∧
  length (filter (λ n, n = name) (cleanup_names (events (setup' st w)))) ≤ 1.
Proof.
  unfold calls. destruct plan' as [sorted|e|] eqn:Hplan; cycle 1.
  - destruct (setup_unplanned registry requested st w) as (e' & _ & ->); [by rewrite Hplan|].
    simpl. split; lia.
  - by apply plan_total in Hplan.
  - destruct (plan_ok _ _ sorted Hplan) as (Hnd & _).
    destruct (setup_planned registry requested st w sorted Hplan)
      as (ss & cs & Hev & Hcn & Hsn & _ & Hout).
    unfold setup_names, cleanup_names in *.
    rewrite Hev, !omap_app, Hsn, Hcn, app_nil_r. simpl.
    destruct (outcome (setup' st w)) as [[]|e|]; [| |done].
    + destruct Hout as (-> & -> & _). simpl. split; [|lia]. by apply count_NoDup.
    + destruct Hout as (k & err & post & Hsorted & -> & _ & -> & _).
      rewrite Hsorted, (cons_middle k), app_assoc in Hnd.
      apply NoDup_app in Hnd as (Hnd & _). split; [by apply count_NoDup|].
      apply NoDup_app in Hnd as (Hnd & _).
      apply count_NoDup. apply (sublist_NoDup _ (reverse (succeeded ss))).
      * by rewrite reverse_Permutation.
      * apply sublist_take.
Qed.

(** X9.  [setup] invokes the setup operation only of registered fixtures
    of the closure, and the cleanup only of fixtures whose setup
    operation returned earlier in the same call. *)
Theorem setup_only_closure (st : State') w i ev :
  events (setup registry requested st w) !! i = Some ev →
  match ev with
  | SetupCall name _ _ => closure registry requested name ∧ ¬ missing registry name
  | CleanupCall name _ | CleanupThrow name _ =>
      name ∈ succeeded (take i (events (setup registry requested st w)))
  end.
Proof.
  destruct plan' as [sorted|e|] eqn:Hplan; cycle 1.
  - destruct (setup_unplanned registry requested st w) as (e' & _ & ->); [by rewrite Hplan|]. done.
  - by apply plan_total in Hplan.
  - destruct (plan_ok _ _ sorted Hplan) as (_ & Hin & _ & Hno).
    destruct (setup_planned registry requested st w sorted Hplan)
      as (ss & cs & Hev & Hcn & Hsn & _ & Hout).
    assert (Hsub : ∀ n, n ∈ setup_names ss → n ∈ sorted).
    { destruct (outcome (setup' st w)) as [[]|e|]; [| |done].
      - by destruct Hout as (_ & -> & _).
      - destruct Hout as (k & err & post & -> & -> & _). set_solver. }
    assert (Hcl : ∀ n, n ∈ cleanup_names cs → n ∈ succeeded ss).
    { destruct (outcome (setup' st w)) as [[]|e|]; [| |done].
      - destruct Hout as (-> & _). by intros n ?%elem_of_nil.
      - destruct Hout as (k & err & post & _ & _ & _ & -> & _).
        intros n (j & Hj & _)%elem_of_take. apply list_elem_of_lookup_2 in Hj.
        by rewrite elem_of_reverse in Hj. }
    rewrite Hev. intros Hi.
    apply lookup_app_Some in Hi as [Hi|[Hlen Hi]].
    + apply list_elem_of_lookup_2 in Hi. destruct ev as [name p out|name r|name e].
      * assert (Hn : name ∈ sorted) by by apply Hsub, (setup_names_elem registry ss name p out).
        apply Hin in Hn. split; [done|by apply Hno].
      * apply cleanup_names_elem in Hi. rewrite Hcn in Hi. by apply elem_of_nil in Hi.
      * apply cleanup_names_elem_thrown in Hi. rewrite Hcn in Hi. by apply elem_of_nil in Hi.
    + apply list_elem_of_lookup_2 in Hi.
      assert (Hpre : ∀ n, n ∈ succeeded ss → n ∈ succeeded (take i (ss ++ cs))).
      { intros n Hn. rewrite take_app_ge by done. unfold succeeded.
        rewrite omap_app. apply elem_of_app. by left. }
      destruct ev as [name p out|name r|name e].
      * apply (setup_names_elem registry) in Hi. rewrite Hsn in Hi. by apply elem_of_nil in Hi.
      * by apply Hpre, Hcl, cleanup_names_elem with r.
      * by apply Hpre, Hcl, cleanup_names_elem_thrown with e.
Qed.



Lemma setup_each_state names : ∀ values (st st' : State') w (evs : list Event'),
  cleanups st = cleanups st' →
  world (setup_each registry names values st w evs) =
    world (setup_each registry names values st' w evs) ∧
  events (setup_each registry names values st w evs) =
    events (setup_each registry names values st' w evs) ∧
  outcome (setup_each registry names values st w evs) =
    outcome (setup_each registry names values st' w evs) ∧
  cleanups (final (setup_each registry names values st w evs)) =
    cleanups (final (setup_each registry names values st' w evs)) ∧
  deps (final (setup_each registry names values st w evs)) = deps st.
Proof.
  induction names as [|name rest IH]; intros values st st' w evs Hcs; simpl; [done|].
  destruct (getFixture registry name) as [[fixture|]|e|]; [|done..].
  destruct (Fixture.setup fixture values w) as [w' [error|result]]; [done|].
  destruct (IH (<[name := value result]> values)
              (mkState (deps st) (cleanups st ++ [(name, cleanup result)]))
              (mkState (deps st') (cleanups st' ++ [(name, cleanup result)])) w'
              (evs ++ [SetupCall name values (inr (value result))]))
    as (? & ? & ? & ? & ?); [simpl; by rewrite Hcs|done].
Qed.

(** X12.  What [setup] invokes, what it does to the world and how it
    ends do not depend on the state it starts from: cleanups left pending
    by an earlier [setup] are neither invoked nor kept.  The state it
    leaves is the one a fresh instance would be left in, with two
    exceptions: when planning fails the state is left as it was, and when
    a rollback cleanup throws the resolved values are left as they were
    (next to the cleanups a fresh instance would be left with). *)
Theorem setup_ignores_state (st : State') w :
  events (setup registry requested st w) = events (setup registry requested initial w) ∧
  world (setup' st w) = world (setup' initial w) ∧
  outcome (setup' st w) = outcome (setup' initial w) ∧
  (final (setup' st w) = final (setup' initial w) ∨
   (final (setup' st w) = st ∧ ∀ sorted, plan' ≠ Ok sorted) ∨
   (thrown (events (setup' st w)) ≠ [] ∧
    deps (final (setup' st w)) = deps st ∧
    cleanups (final (setup' st w)) = cleanups (final (setup' initial w)))).
Proof.
  destruct plan' as [sorted|e|] eqn:Hplan; cycle 1.
  - destruct (setup_unplanned registry requested st w) as (e1 & H1 & ->);
      [by rewrite Hplan|].
    destruct (setup_unplanned registry requested initial w) as (e2 & H2 & ->);
      [by rewrite Hplan|].
    rewrite Hplan in H1, H2. simplify_eq. simpl.
    split_and!; [done..|]. right. left. by split.
  - by apply plan_total in Hplan.
  - destruct (setup_each_state sorted ∅ (mkState (deps st) []) (mkState None []) w [])
      as (Hw & He & Ho & Hc & Hd); [done|].
    destruct (setup_each_run registry sorted ∅ (mkState None []) w [])
      as (new & _ & _ & _ & _ & _ & Hout); [|done|].
    { intros n Hn. apply (plan_ok _ _ sorted Hplan), (plan_ok _ _ sorted Hplan), Hn. }
    cbv zeta in Hout. unfold setup, tried, initial. rewrite Hplan. simpl.
    rewrite Ho, Hc, Hw, He.
    destruct (outcome (setup_each registry sorted ∅ (mkState None []) w [])) as [v|e|];
      [| |done].
    + simpl. split_and!; [done..|]. by left.
    + destruct (cleanup_each_run
                  (reverse (cleanups (final (setup_each registry sorted ∅
                                               (mkState None []) w []))))
                  (world (setup_each registry sorted ∅ (mkState None []) w []))
                  (events (setup_each registry sorted ∅ (mkState None []) w [])))
        as (cs & Hcev & _ & _ & _ & _ & Hthrown).
      destruct (cleanup_each _ _ _) as [[w' evs] [e'|]]; simpl in *.
      * split_and!; [done..|]. right. right. split_and!; [|done..].
        destruct Hthrown as (pre & name & -> & _). rewrite Hcev, !thrown_app. simpl.
        intros Hnil. by apply app_eq_nil in Hnil as [_ [_ ?]%app_eq_nil].
      * split_and!; [done..|]. by left.
Qed.



(** X15.  The rollback.  In a pass whose planning returned [sorted], in
    which the setup operation of the fixture at position [k] raised [e]
    and no cleanup threw instead of returning a promise: the calls are
    the setups of the first [k + 1] fixtures followed by the cleanups
    that the first [k] returned, each once, in reverse order, each
    acting on the world the previous one left; whether those cleanups
    resolve or reject, the state is cleared and the caller gets [e]. *)
Theorem rollback_law (st : State') w sorted k name passed e :
  plan registry requested = Ok sorted →
  sorted !! k = Some name →
  SetupCall name passed (inl e) ∈ events (setup registry requested st w) →
  thrown (events (setup registry requested st w)) = [] →
  ∃ cs,
    events (setup' st w) = events (tried registry sorted st w) ++ cs ∧
    setup_names (events (tried registry sorted st w)) = take (S k) sorted ∧
    cleanup_names (events (tried registry sorted st w)) = [] ∧
    (cleanups (final (tried registry sorted st w))).*1 = take k sorted ∧
    cleanup_names cs = reverse (take k sorted) ∧ setup_names cs = [] ∧
    length cs = k ∧ NoDup (take k sorted) ∧
    world (setup' st w) =
      applied (reverse (cleanups (final (tried registry sorted st w))).*2)
              (world (tried registry sorted st w)) ∧
    outcome (setup' st w) = Throw (Raised e) ∧
    final (setup' st w) = mkState None [].
Proof.
  intros Hplan Hk Hin Hthrown.
  destruct (setup_planned registry requested st w sorted Hplan)
    as (ss & cs & Hev & Hcl & Hsn & _ & Hout).
  destruct (plan_ok _ _ sorted Hplan) as (Hnd & _).
  apply (failures_elem registry) in Hin. rewrite Hev, (failures_app registry) in Hin.
  assert (Hcs : failures cs = []).
  { destruct (failures cs) as [|[n e'] l] eqn:Hf; [done|].
    destruct (failures_inv cs n e') as [q Hq]; [rewrite Hf; set_solver|].
    apply (setup_names_elem registry) in Hq. rewrite Hsn in Hq. by apply elem_of_nil in Hq. }
  rewrite Hcs, app_nil_r in Hin.
  rewrite Hev, thrown_app, (thrown_nil ss Hcl) in Hthrown. simpl in Hthrown.
  destruct (outcome (setup' st w)) as [[]|err|]; [| |done].
  { destruct Hout as (_ & _ & _ & Hf & _). rewrite Hf in Hin. by apply elem_of_nil in Hin. }
  destruct Hout as (k0 & e0 & post & Hsorted & Hs & Hf & Hcn & Hlen & Hw & Hss & Hpushed & Hor).
  rewrite Hf in Hin. apply list_elem_of_singleton in Hin. injection Hin as <- <-.
  destruct Hor as [(-> & _ & Hall & Hfinal)|(pre & n & e' & _ & -> & _)]; cycle 1.
  { rewrite thrown_app in Hthrown. by apply app_eq_nil in Hthrown as [_ ?]. }
  assert (Hk0 : k = length (succeeded ss)).
  { apply (NoDup_lookup sorted _ _ name Hnd Hk). rewrite Hsorted.
    by rewrite lookup_app_r, Nat.sub_diag. }
  assert (Htake : take k sorted = succeeded ss).
  { rewrite Hsorted, Hk0. by rewrite take_app_length. }
  assert (Htake' : take (S k) sorted = succeeded ss ++ [name]).
  { rewrite Hsorted, Hk0, (cons_middle name), app_assoc.
    rewrite take_app_length'; [done|]. rewrite length_app. simpl. lia. }
  exists cs. rewrite <-Hss, Htake, Htake'.
  rewrite Hall, <-(length_reverse (succeeded ss)), firstn_all in Hcn.
  assert (Hfull : take (length cs) (reverse (cleanups (final (tried registry sorted st w))).*2)
                  = reverse (cleanups (final (tried registry sorted st w))).*2).
  { rewrite Hall, <-Hpushed, !length_fmap, <-(length_fmap snd), <-length_reverse.
    apply firstn_all. }
  rewrite Hfull in Hw.
  split_and!; try done; try lia.
  rewrite Hsorted in Hnd. by apply NoDup_app in Hnd as (? & _).
Qed.

(** X16.  The reverse-order law.  After a [setup] that returned, the
    pending cleanups are those the fixtures returned, in setup order; a
    [teardown] in which no cleanup throws instead of returning a promise
    invokes exactly them, each once, in the reverse order, each acting
    on the world the previous one left; whether they resolve or reject,
    it leaves the state cleared and returns. *)
Theorem teardown_law (st : State') w w' :
  outcome (setup registry requested st w) = Ok tt →
  thrown (events (teardown (final (setup registry requested st w)) w')) = [] →
  (cleanups (final (setup' st w))).*1 = setup_names (events (setup' st w)) ∧
  NoDup (setup_names (events (setup' st w))) ∧
  cleanup_names (events (teardown (final (setup' st w)) w')) =
    reverse (setup_names (events (setup' st w))) ∧
  setup_names (events (teardown (final (setup' st w)) w')) = [] ∧
  length (events (teardown (final (setup' st w)) w')) =
    length (setup_names (events (setup' st w))) ∧
  world (teardown (final (setup' st w)) w') =
    applied (reverse (cleanups (final (setup' st w))).*2) w' ∧
  final (teardown (final (setup' st w)) w') = mkState None [] ∧
  outcome (teardown (final (setup' st w)) w') = Ok tt.
Proof.
  intros Hok Hthrown. destruct (outcome_ok_planned registry requested st w Hok) as [sorted Hplan].
  destruct (plan_ok _ _ sorted Hplan) as (Hnd & _).
  destruct (setup_planned registry requested st w sorted Hplan)
    as (ss & cs & Hev & _ & _ & _ & Hout).
  rewrite Hok in Hout. destruct Hout as (-> & Hs & _ & _ & _ & Hcs).
  rewrite app_nil_r in Hev.
  destruct (teardown_run (final (setup' st w)) w') as (Hcn & Hsn & Hlen & Hw & Hout).
  cbv zeta in *. rewrite Hev, Hs.
  destruct (outcome (teardown (final (setup' st w)) w')) as [[]|e|]; [| |done]; cycle 1.
  { destruct Hout as (pre & name & e' & _ & Hevt & _). rewrite Hevt, thrown_app in Hthrown.
    by apply app_eq_nil in Hthrown as [_ ?]. }
  destruct Hout as (Hall & _ & Hfinal).
  rewrite Hall, <-(length_fmap fst), <-length_reverse, firstn_all, Hcs in Hcn.
  rewrite Hall, <-(length_fmap snd), <-length_reverse, firstn_all in Hw.
  rewrite <-(length_fmap fst), Hcs in Hall.
  split_and!; done.
Qed.

(** X17.  Every way a call of [teardown] can end, from any state.  The
    cleanups it invokes are the pending ones from the last backwards,
    each acting on the world the previous one left.  It returns when
    every one of them returned a promise, resolved or rejected, and the
    state is then cleared.  Otherwise it stops at the first cleanup that
    throws instead, with that error: the resolved values stay and the
    cleanups stay pending, in reversed order. *)
Theorem teardown_outcomes (st : State') w :
  cleanup_names (events (teardown st w)) =
    take (length (events (teardown st w))) (reverse (cleanups st).*1) ∧
  setup_names (events (teardown st w)) = [] ∧
  world (teardown st w) =
    applied (take (length (events (teardown st w))) (reverse (cleanups st).*2)) w ∧
  match outcome (teardown st w) with
  | Ok _ =>
      length (events (teardown st w)) = length (cleanups st) ∧
      thrown (events (teardown st w)) = [] ∧
      final (teardown st w) = mkState None []
  | Throw (Raised e) =>
      (∃ pre name, events (teardown st w) = pre ++ [CleanupThrow name e] ∧
                   thrown pre = []) ∧
      length (events (teardown st w)) ≤ length (cleanups st) ∧
      final (teardown st w) = mkState (deps st) (reverse (cleanups st))
  | Throw _ => False
  | OutOfFuel => False
  end.
Proof using Type.
  destruct (teardown_run st w) as (Hcn & Hsn & Hlen & Hw & Hout).
  cbv zeta in *. split_and!; [done..|].
  destruct (outcome (teardown st w)) as [[]|e|]; [done| |done].
  destruct Hout as (pre & name & e' & -> & Hev & Hpre & Hfinal).
  split_and!; [by exists pre, name|done..].
Qed.



(** X19.  Repeated [teardown].  Once a [teardown] has returned, a further
    [teardown] invokes nothing, leaves the world as it is and the state
    cleared, and returns: any number of them in a row is a no-op. *)
Theorem teardown_again (st : State') w w' :
  outcome (teardown st w) = Ok tt →
  final (teardown st w) = mkState None [] ∧
  teardown (final (teardown st w)) w' = mkRun (mkState None []) w' [] (Ok tt).
Proof using Type.
  intros Hok. destruct (teardown_run st w) as (_ & _ & _ & _ & Hout).
  cbv zeta in Hout. rewrite Hok in Hout. destruct Hout as (_ & _ & ->). done.
Qed.

End lifecycle_more.

(** ** Instances of the further properties *)

Lemma sorter_example_sorted :
  sortFixtures (Err := unit) sorter_example ["a"] = Ok ["c"; "b"; "a"].
Proof. by vm_compute. Qed.

Lemma sorter_order_witness :
  NoDup ["c"; "b"; "a"] ∧
  (∀ x, x ∈ ["a"] → x ∈ ["c"; "b"; "a"]) ∧
  (∀ x, x ∈ ["c"; "b"; "a"] ↔ reached sorter_example ["a"] x) ∧
  (∀ x d, x ∈ ["c"; "b"; "a"] → edge sorter_example x d → d ∈ ["c"; "b"; "a"]) ∧
  topological (edge sorter_example) ["c"; "b"; "a"].
Proof.
  apply (sorter_order (Err := unit) sorter_example ["a"]). by vm_compute.
Defined.

Lemma sorter_keeps_sorted_input_witness :
  sortFixtures (Err := unit) sorter_example ["c"; "b"; "a"] = Ok ["c"; "b"; "a"].
Proof.
  apply sorter_keeps_sorted_input.
  - apply (sortFixtures_ok _ _ _ sorter_example_sorted).
  - apply (sortFixtures_ok _ _ _ sorter_example_sorted).
Defined.

Lemma sorter_idempotent_witness :
  sortFixtures (Err := unit) sorter_example ["c"; "b"; "a"] = Ok ["c"; "b"; "a"].
Proof.
  apply (sorter_idempotent sorter_example ["a"]). by vm_compute.
Defined.

Lemma graph_closure_witness :
  let g := mkGraph (<["foo" := ["shared"]]> (<["shared" := []]> (<["bar" := ["shared"]]> ∅)))
                   ["foo"; "bar"; "shared"] in
  (∀ n ds, dependencies g !! n = Some ds ↔
     closure shared_registry ["foo"; "bar"] n ∧
     ∃ fixture, shared_registry !! n = Some fixture ∧
                Fixture.dependencies fixture = ds) ∧
  NoDup (toLoad g) ∧
  (∀ n, n ∈ toLoad g ↔ closure shared_registry ["foo"; "bar"] n) ∧
  Set_from ["foo"; "bar"] `prefix_of` toLoad g.
Proof.
  apply (graph_closure shared_registry ["foo"; "bar"]). by vm_compute.
Defined.

Lemma setup_follows_request_witness :
  plan unrelated_registry ["foo"; "bar"; "baz"] = Ok ["foo"; "bar"; "baz"] ∧
  setup_names (events (setup unrelated_registry ["foo"; "bar"; "baz"] start []))
    `prefix_of` ["foo"; "bar"; "baz"] ∧
  (outcome (setup unrelated_registry ["foo"; "bar"; "baz"] start []) = Ok tt →
   setup_names (events (setup unrelated_registry ["foo"; "bar"; "baz"] start []))
     = ["foo"; "bar"; "baz"]).
Proof.
  apply (setup_follows_request unrelated_registry ["foo"; "bar"; "baz"]).
  - repeat (apply NoDup_cons; split; [set_solver|]). apply NoDup_nil_2.
  - intros [|[|[|i]]] x Hi; simpl in Hi; [injection Hi as <-..|done];
      (eexists; split; [vm_compute; reflexivity|]);
      simpl; by intros d ?%elem_of_nil.
Defined.




Lemma setup_only_closure_witness :
  "b" ∈ succeeded (take 3 (events (setup setup_fails_registry ["c"] start []))).
Proof.
  apply (setup_only_closure setup_fails_registry ["c"] start [] 3 (CleanupCall "b" None)).
  by vm_compute.
Defined.


Lemma rollback_law_witness :
  ∃ cs,
    events (setup setup_fails_registry ["c"] start []) =
      events (tried setup_fails_registry ["a"; "b"; "c"] start []) ++ cs ∧
    setup_names (events (tried setup_fails_registry ["a"; "b"; "c"] start [])) =
      take 3 ["a"; "b"; "c"] ∧
    cleanup_names (events (tried setup_fails_registry ["a"; "b"; "c"] start [])) = [] ∧
    (cleanups (final (tried setup_fails_registry ["a"; "b"; "c"] start []))).*1 =
      take 2 ["a"; "b"; "c"] ∧
    cleanup_names cs = reverse (take 2 ["a"; "b"; "c"]) ∧ setup_names cs = [] ∧
    length cs = 2 ∧ NoDup (take 2 ["a"; "b"; "c"]) ∧
    world (setup setup_fails_registry ["c"] start []) =
      applied (reverse (cleanups (final (tried setup_fails_registry ["a"; "b"; "c"]
                                           start []))).*2)
              (world (tried setup_fails_registry ["a"; "b"; "c"] start [])) ∧
    outcome (setup setup_fails_registry ["c"] start []) = Throw (Raised "setup failed") ∧
    final (setup setup_fails_registry ["c"] start []) = mkState None [].
Proof.
  apply (rollback_law setup_fails_registry ["c"] start [] ["a"; "b"; "c"] 2 "c"
           (<["b" := "b"]> (<["a" := "a"]> ∅)) "setup failed").
  - by vm_compute.
  - done.
  - vm_compute. do 2 apply list_elem_of_further. apply list_elem_of_here.
  - by vm_compute.
Defined.

Lemma teardown_law_witness :
  let r := setup cleanup_fails_registry ["c"] start [] in
  (cleanups (final r)).*1 = setup_names (events r) ∧
  NoDup (setup_names (events r)) ∧
  cleanup_names (events (teardown (final r) (world r))) = reverse (setup_names (events r)) ∧
  setup_names (events (teardown (final r) (world r))) = [] ∧
  length (events (teardown (final r) (world r))) = length (setup_names (events r)) ∧
  world (teardown (final r) (world r)) =
    applied (reverse (cleanups (final r)).*2) (world r) ∧
  final (teardown (final r) (world r)) = mkState None [] ∧
  outcome (teardown (final r) (world r)) = Ok tt.
Proof.
  apply (teardown_law cleanup_fails_registry ["c"] start []); by vm_compute.
Defined.


Lemma teardown_again_witness :
  let r := setup cleanup_fails_registry ["c"] start [] in
  final (teardown (final r) (world r)) = mkState None [] ∧
  teardown (final (teardown (final r) (world r))) [] = mkRun (mkState None []) [] [] (Ok tt).
Proof.
  apply (teardown_again (final (setup cleanup_fails_registry ["c"] start []))).
  by vm_compute.
Defined.
